(** * 3D-Spinny: the shape model, the camera and the frame loop

    A shallow embedding of [shapes.py] and [main.py].  Python exceptions are
    carried by the [result] monad, Python sets of point indices by [gset nat],
    dictionaries by [gmap].  The shape model is written once for any type of
    numbers ([Number]), as the Python code is; it is run on exact rationals
    ([Qc]), and the camera and the projection, which need square roots and
    trigonometry, live over the real numbers ([R]). *)

From Stdlib Require Import Reals Lra QArith Qcanon.
From stdpp Require Import base option list gmap strings fin_sets.

(** ** Exceptions *)

Inductive exn : Set :=
  | ValueError | KeyError | IndexError | AttributeError | TypeError
  | ZeroDivisionError | InvalidInput.

Inductive result (A : Type) : Type :=
  | Ok (a : A)
  | Raise (e : exn).
Arguments Ok {A} a.
Arguments Raise {A} e.

#[global] Instance result_bind : MBind result := λ A B k r,
  match r with Ok a => k a | Raise e => Raise e end.
#[global] Instance result_ret : MRet result := λ A a, Ok a.

(** [for x in l: ...] with a body that may raise and yields one value. *)
Fixpoint for_each {A B} (f : A → result B) (l : list A) : result (list B) :=
  match l with
  | [] => Ok []
  | x :: l' => y ← f x; ys ← for_each f l'; Ok (y :: ys)
  end.

Definition from_option {A} (e : exn) (o : option A) : result A :=
  match o with Some a => Ok a | None => Raise e end.

(** ** Numbers *)

(** What the shape code asks of the components of a point: the arithmetic
    of [+], [-], [*], [/] and the comparison [==]. *)
Class Number (A : Type) := {
  n0 : A;
  n1 : A;
  nadd : A → A → A;
  nsub : A → A → A;
  nmul : A → A → A;
  ndiv : A → A → A;
  neq_dec :: EqDecision A;
}.

Declare Scope num_scope.
Delimit Scope num_scope with num.
Infix "+" := nadd : num_scope.
Infix "-" := nsub : num_scope.
Infix "*" := nmul : num_scope.
Infix "/" := ndiv : num_scope.

#[global] Instance Number_Qc : Number Qc := {|
  n0 := 0%Qc; n1 := 1%Qc;
  nadd := Qcplus; nsub := Qcminus; nmul := Qcmult; ndiv := Qcdiv;
  neq_dec := Qc_eq_dec |}.

#[global] Instance Number_R : Number R := {|
  n0 := 0%R; n1 := 1%R;
  nadd := Rplus; nsub := Rminus; nmul := Rmult; ndiv := Rdiv;
  neq_dec := Req_dec_T |}.


(** The two facts about numbers that anchoring relies on.  They hold for
    Python's integers and, up to [==], for its finite floats. *)
Class NumberLaws (A : Type) `{Number A} : Prop := {
  nsub_diag (x : A) : (x - x)%num = n0;
  nadd_0_l (x : A) : (n0 + x)%num = x }.

(** ** Vectors and matrices *)

Section Linear.
Context {A : Type} `{Number A}.
Local Open Scope num_scope.

(** Modelled from the spec: module [matrix] (classes [Vector] and [Matrix])
    is imported by both source files but is not among them.  The spec
    describes a vector as a fixed-length tuple of two or three numbers with
    component-wise [+], [-], unary minus and scaling, compared by its
    [value]; world-space points have three components, screen-space points
    two.  The two lengths are two types here, so that operands of unequal
    length, which the spec calls a programming error, cannot be written. *)
Record Vector3 := V3 { v3x : A; v3y : A; v3z : A }.
Record Vector2 := V2 { v2x : A; v2y : A }.

Definition value3 (v : Vector3) : list A := [v3x v; v3y v; v3z v].
Definition value2 (v : Vector2) : list A := [v2x v; v2y v].

Definition vadd3 (a b : Vector3) : Vector3 :=
  V3 (v3x a + v3x b) (v3y a + v3y b) (v3z a + v3z b).
Definition vsub3 (a b : Vector3) : Vector3 :=
  V3 (v3x a - v3x b) (v3y a - v3y b) (v3z a - v3z b).
Definition vscale3 (a : Vector3) (k : A) : Vector3 :=
  V3 (v3x a * k) (v3y a * k) (v3z a * k).
Definition vadd2 (a b : Vector2) : Vector2 :=
  V2 (v2x a + v2x b) (v2y a + v2y b).
Definition vscale2 (a : Vector2) (k : A) : Vector2 :=
  V2 (v2x a * k) (v2y a * k).

(** Modelled from the spec: a matrix is built from ordered rows; the
    program uses three rows of three columns and two rows of three
    columns.  Matrix times vector is the dot product of every row with the
    vector; the determinant of a 3x3 matrix is the cofactor expansion along
    its first row, a(ei - fh) - b(di - fg) + c(dh - eg). *)
Record Matrix3 := M3 { m3r1 : Vector3; m3r2 : Vector3; m3r3 : Vector3 }.
Record Matrix23 := M23 { m23r1 : Vector3; m23r2 : Vector3 }.

Definition dot (r v : Vector3) : A :=
  v3x r * v3x v + v3y r * v3y v + v3z r * v3z v.
Definition mulv (m : Matrix3) (v : Vector3) : Vector3 :=
  V3 (dot (m3r1 m) v) (dot (m3r2 m) v) (dot (m3r3 m) v).
Definition mulv23 (m : Matrix23) (v : Vector3) : Vector2 :=
  V2 (dot (m23r1 m) v) (dot (m23r2 m) v).
Definition det (m : Matrix3) : A :=
  let '(V3 a b c) := m3r1 m in
  let '(V3 d e f) := m3r2 m in
  let '(V3 g h i) := m3r3 m in
  a * (e * i - f * h) - b * (d * i - f * g) + c * (d * h - e * g).

Definition column (m : Matrix3) (k : Vector3 → A) : Vector3 :=
  V3 (k (m3r1 m)) (k (m3r2 m)) (k (m3r3 m)).
Definition mulm (m n : Matrix3) : Matrix3 :=
  let row r := V3 (dot r (column n v3x)) (dot r (column n v3y))
                  (dot r (column n v3z)) in
  M3 (row (m3r1 m)) (row (m3r2 m)) (row (m3r3 m)).

(** shapes.py, lines 4-5 *)
Definition v0 : Vector3 := V3 n0 n0 n0.
Definition m1 : Matrix3 := M3 (V3 n1 n0 n0) (V3 n0 n1 n0) (V3 n0 n0 n1).

#[global] Instance Vector3_eq_dec : EqDecision Vector3.
Proof. solve_decision. Defined.
#[global] Instance Vector2_eq_dec : EqDecision Vector2.
Proof. solve_decision. Defined.
End Linear.

Arguments Vector3 A : clear implicits.
Arguments Vector2 A : clear implicits.
Arguments Matrix3 A : clear implicits.
Arguments Matrix23 A : clear implicits.

(** ** shapes.py *)

(** A line of a shape is a Python set of point indices ([{0,1}] in the class
    tables, [{changes[i], changes[j]}] after [optimise]) or a tuple
    ([(i1+offset, i2+offset)] in [ShapeCombination.__init__]). *)
Inductive Edge : Set :=
  | ESet (s : gset nat)
  | ETuple (i j : nat).

#[global] Instance Edge_eq_dec : EqDecision Edge.
Proof. solve_decision. Defined.

(** [for i,j in ...]: a tuple unpacks in order; a set must hold exactly two
    elements.  Every use of the two indices in the program is symmetric in
    them or ends in a set again, so the order a set yields them in is the
    order of [elements]. *)
Definition unpack (l : Edge) : result (nat * nat) :=
  match l with
  | ETuple i j => Ok (i, j)
  | ESet s => match elements s with
              | [i; j] => Ok (i, j)
              | _ => Raise ValueError
              end
  end.

Fixpoint fold_result {S X} (f : S → X → result S) (l : list X) (s : S)
  : result S :=
  match l with
  | [] => Ok s
  | x :: l' => s' ← f s x; fold_result f l' s'
  end.

Definition enumerate {X} (l : list X) : list (nat * X) := imap pair l.

Section Shapes.
Context {A : Type} `{Number A}.
Local Open Scope num_scope.

Record Shape := { points : list (Vector3 A); lines : list Edge }.

(** The class attributes [DEFAULT_POINTS] and [LINES]. *)
Record ShapeClass :=
  { DEFAULT_POINTS : list (Vector3 A); LINES : list Edge }.

Definition cur (self : Shape) : result (Vector3 A) :=
  from_option IndexError (points self !! 0%nat).

Definition reset (cls : ShapeClass) : Shape :=
  {| points := DEFAULT_POINTS cls; lines := LINES cls |}.

(** The comprehension reads the property [cur] at every point, while
    [self.points] still is the old list. *)
Definition move_to (self : Shape) (pos : Vector3 A) : result Shape :=
  pts ← for_each (λ v, c ← cur self; Ok (vadd3 (vsub3 v c) pos))
                 (points self);
  Ok {| points := pts; lines := lines self |}.

Definition move_by (self : Shape) (pos : Vector3 A) : Shape :=
  {| points := map (λ v, vadd3 v pos) (points self); lines := lines self |}.

(** The state of the loop over the points in [optimise]. *)
Record scan := {
  seen_vects : list (Vector3 A);
  changes : gmap nat nat;
  offset : nat }.

(** The inner [for j, w in enumerate(seen_vects)] with its [break]. *)
Fixpoint find_seen (v : Vector3 A) (seen : list (Vector3 A)) (j : nat)
  : option nat :=
  match seen with
  | [] => None
  | w :: ws => if bool_decide (value3 v = value3 w) then Some j
               else find_seen v ws (S j)
  end.

(** One round of the outer loop.  [offset] counts the points merged so
    far, so it never exceeds [i] and [i - offset] is the same on [nat] as on
    Python's integers. *)
Definition scan_point (st : scan) (iv : nat * Vector3 A) : scan :=
  let '(i, v) := iv in
  match find_seen v (seen_vects st) 0 with
  | Some j => {| seen_vects := seen_vects st;
                 changes := <[i := j]> (changes st);
                 offset := S (offset st) |}
  | None => {| seen_vects := seen_vects st ++ [v];
               changes := <[i := (i - offset st)%nat]> (changes st);
               offset := offset st |}
  end.

Definition scan_points (pts : list (Vector3 A)) : scan :=
  foldl scan_point {| seen_vects := []; changes := ∅; offset := 0 |}
        (enumerate pts).

(** [{changes[i], changes[j]} for i,j in self.lines] *)
Definition rewrite_line (ch : gmap nat nat) (l : Edge) : result Edge :=
  '(i, j) ← unpack l;
  ci ← from_option KeyError (ch !! i);
  cj ← from_option KeyError (ch !! j);
  Ok (ESet {[ ci; cj ]}).

(** Lines 51-55: keep a line unless it is in [new_lines] already. *)
Definition append_new (new_lines : list Edge) (l : Edge) : list Edge :=
  if bool_decide (l ∈ new_lines) then new_lines else new_lines ++ [l].

Definition optimise (self : Shape) : result Shape :=
  let st := scan_points (points self) in
  ls ← for_each (rewrite_line (changes st)) (lines self);
  Ok {| points := seen_vects st; lines := foldl append_new [] ls |}.

Definition transform (self : Shape) (m : Matrix3 A) : result Shape :=
  let self' := {| points := map (mulv m) (points self);
                  lines := lines self |} in
  if bool_decide (det m = n0) then optimise self' else Ok self'.

(** [Shape.__init__] *)
Definition Shape_init (cls : ShapeClass) (shift : Vector3 A)
    (trans : Matrix3 A) : result Shape :=
  self ← move_to (reset cls) shift;
  transform self trans.

Definition Shape_class : ShapeClass :=
  {| DEFAULT_POINTS := [v0]; LINES := [] |}.

(** One round of the loop of [ShapeCombination.__init__]. *)
Definition absorb (self shape : Shape) : result Shape :=
  let offset := length (points self) in
  ls ← for_each (λ l, '(i1, i2) ← unpack l;
                      Ok (ETuple (i1 + offset) (i2 + offset)))
                (lines shape);
  Ok {| points := points self ++ points shape; lines := lines self ++ ls |}.

Definition ShapeCombination (shapes : list Shape) (shift : Vector3 A)
    (trans : Matrix3 A) : result Shape :=
  self ← fold_result absorb shapes (reset Shape_class);
  self ← move_to self shift;
  self ← transform self trans;
  optimise self.

Definition conv (x y z : A) : Vector3 A := V3 x y z.
Definition n2 : A := n1 + n1.

Definition Cube_class : ShapeClass := {|
  DEFAULT_POINTS := [
    conv n0 n0 n0; conv n0 n0 n1; conv n1 n0 n1; conv n1 n0 n0;
    conv n0 n1 n0; conv n0 n1 n1; conv n1 n1 n1; conv n1 n1 n0 ];
  LINES := [
    ESet {[0; 1]}; ESet {[1; 2]}; ESet {[2; 3]}; ESet {[3; 0]};
    ESet {[4; 5]}; ESet {[5; 6]}; ESet {[6; 7]}; ESet {[7; 4]};
    ESet {[0; 4]}; ESet {[1; 5]}; ESet {[2; 6]}; ESet {[3; 7]} ]%nat |}.

Definition SquarePyramid_class : ShapeClass := {|
  DEFAULT_POINTS := [
    conv n0 n0 n0; conv n0 n0 n1; conv n1 n0 n1; conv n1 n0 n0;
    conv (n1 / n2) n1 (n1 / n2) ];
  LINES := [
    ESet {[0; 1]}; ESet {[1; 2]}; ESet {[2; 3]}; ESet {[3; 0]};
    ESet {[0; 4]}; ESet {[1; 4]}; ESet {[2; 4]}; ESet {[3; 4]} ]%nat |}.

Definition Cube := Shape_init Cube_class.
Definition SquarePyramid := Shape_init SquarePyramid_class.
End Shapes.

Arguments Shape A : clear implicits.
Arguments ShapeClass A : clear implicits.
Arguments scan A : clear implicits.

(** ** What the deduplication pass is meant to compute *)

(** The items of [l] that are the first occurrence of their value, in the
    order of [l]: item [i] stays when none of the items before it equals it. *)
Definition first_occurrences {X} `{EqDecision X} (l : list X) : list X :=
  (filter (λ ix : nat * X, ix.2 ∉ take ix.1 l) (enumerate l)).*2.

(** The indices an edge holds, as an unordered collection. *)
Definition edge_set (l : Edge) : gset nat :=
  match l with
  | ESet s => s
  | ETuple i j => {[ i; j ]}
  end.

(** An edge of a shape with [n] points joins two of them. *)
Definition edge_ok (n : nat) (l : Edge) : Prop :=
  match l with
  | ESet s => size s = 2 ∧ set_Forall (λ i, i < n) s
  | ETuple i j => i < n ∧ j < n
  end.

#[global] Instance edge_ok_dec n l : Decision (edge_ok n l).
Proof. destruct l; simpl; apply _. Defined.

Section Spec.
Context {A : Type} `{Number A}.

(** The old-index-to-new-index mapping: where the value of point [i] sits
    among the retained points. *)
Definition new_index (pts : list (Vector3 A)) (i : nat) : option nat :=
  v ← pts !! i;
  fst <$> list_find (λ w, w = v) (first_occurrences pts).

Definition optimise_spec (self : Shape A) : Shape A :=
  {| points := first_occurrences (points self);
     lines := first_occurrences
                (map (λ l, ESet (set_omap (new_index (points self))
                                          (edge_set l)))
                     (lines self)) |}.

(** Every edge joins two points of the shape. *)
Definition well_formed (self : Shape A) : Prop :=
  Forall (edge_ok (length (points self))) (lines self).

(** Every index an edge holds is an index into the point list. *)
Definition valid_edges (self : Shape A) : Prop :=
  ∀ l i, l ∈ lines self → i ∈ edge_set l → i < length (points self).

(** The shape states the program can build: the three constructors, then
    any sequence of the four operations. *)
Inductive reachable : Shape A → Prop :=
  | reach_Cube shift trans s :
      Cube shift trans = Ok s → reachable s
  | reach_SquarePyramid shift trans s :
      SquarePyramid shift trans = Ok s → reachable s
  | reach_ShapeCombination shapes shift trans s :
      (∀ c, c ∈ shapes → reachable c) →
      ShapeCombination shapes shift trans = Ok s → reachable s
  | reach_move_to s pos s' :
      reachable s → move_to s pos = Ok s' → reachable s'
  | reach_move_by s pos :
      reachable s → reachable (move_by s pos)
  | reach_transform s m s' :
      reachable s → transform s m = Ok s' → reachable s'
  | reach_optimise s s' :
      reachable s → optimise s = Ok s' → reachable s'.
End Spec.

(** ** Calls on a shape object *)

Section Calls.
Context {A : Type} `{Number A}.

(** A method works on the object in place, so a call that raises still
    leaves the object in some state: the one its assignments had reached.
    A call is the state of the object afterwards and the exception, if one
    was raised.  [optimise] has assigned [self.points] (line 49) when the
    comprehension of line 50 runs; when that raises, [self.lines] is the old
    list still. *)
Definition optimise_call (self : Shape A) : Shape A * option exn :=
  let st := scan_points (points self) in
  let self1 := {| points := seen_vects st; lines := lines self |} in
  match for_each (rewrite_line (changes st)) (lines self) with
  | Raise e => (self1, Some e)
  | Ok ls =>
      ({| points := points self1; lines := foldl append_new [] ls |}, None)
  end.

(** [transform] has assigned the mapped points (line 31) when it calls
    [optimise]. *)
Definition transform_call (self : Shape A) (m : Matrix3 A)
  : Shape A * option exn :=
  let self1 := {| points := map (mulv m) (points self);
                  lines := lines self |} in
  if bool_decide (det m = n0) then optimise_call self1 else (self1, None).
End Calls.

(** The scene of the spec's deduplication test: two unit cubes stacked
    along z. *)
Definition two_cubes : result (Shape Qc) :=
  c1 ← Cube v0 m1;
  c2 ← Cube (V3 0 0 1)%Qc m1;
  ShapeCombination [c1; c2] v0 m1.

(** ** main.py *)

Module Main.
Local Open Scope R_scope.

(** Lines 13-25: the rotation matrices. *)
Definition z_rotator (angle : R) : Matrix3 R :=
  M3 (V3 (cos angle) (- sin angle) 0)
     (V3 (sin angle) (cos angle) 0)
     (V3 0 0 1).
Definition x_rotator (angle : R) : Matrix3 R :=
  M3 (V3 1 0 0)
     (V3 0 (cos angle) (- sin angle))
     (V3 0 (sin angle) (cos angle)).
Definition obj_rotator : Matrix3 R := z_rotator (PI / 32).

(** Modelled from the spec: [Vector.length] of the absent module [matrix]
    is the Euclidean norm, the square root of the sum of the squared
    components. *)
Definition length3 (v : Vector3 R) : R :=
  sqrt (v3x v * v3x v + v3y v * v3y v + v3z v * v3z v).

Record Camera := {
  pos : Vector3 R;
  view : Vector3 R;
  speed : R;
  rot_speed : R }.

(** [Camera()] *)
Definition Camera_init : Camera :=
  {| pos := V3 0 (-10) 0; view := V3 0 1 0;
     speed := 1 / 10; rot_speed := PI / 64 |}.

Definition Camera_x (self : Camera) : R := v3x (view self).
Definition Camera_y (self : Camera) : R := v3y (view self).
Definition Camera_z (self : Camera) : R := v3z (view self).

Definition z_rotation_angle (self : Camera) : R :=
  if decide (Camera_y self = 0) then PI
  else atan (Camera_x self / Camera_y self).

Definition x_rotation_angle (self : Camera) : R :=
  if decide (Camera_y self = 0) then PI
  else atan (Camera_z self / Camera_y self).

Definition Camera_move (self : Camera) (v : Vector3 R) : Camera :=
  {| pos := vadd3 (pos self) (vscale3 v (speed self));
     view := view self; speed := speed self; rot_speed := rot_speed self |}.

Definition Camera_turn (self : Camera) (rad_x rad_z : R) : Camera :=
  let rot_matrix := mulm (x_rotator rad_x) (z_rotator rad_z) in
  {| pos := pos self; view := mulv rot_matrix (view self);
     speed := speed self; rot_speed := rot_speed self |}.

(** Lines 40-51.  [1/v.length] raises when the length is zero. *)
Definition projection (v : Vector3 R) (camera : Camera)
    (centre : Vector2 R) : result (Vector2 R) :=
  let v := vsub3 v (pos camera) in
  let v := mulv (x_rotator (x_rotation_angle camera)) v in
  let v := mulv (z_rotator (z_rotation_angle camera)) v in
  if decide (length3 v = 0) then Raise ZeroDivisionError else
  let sx := 1 / length3 v in
  let sy := 1 / length3 v in
  let sx := sx * 800 in
  let sy := sy * -800 in
  let res := mulv23 (M23 (V3 sx 0 0) (V3 0 0 sy)) v in
  Ok (vadd2 res centre).

(** What a variable of a handler may hold: a vector of either length, or
    the plain tuple [(0,0)] of line 187. *)
Inductive PyVal :=
  | PVector3 (v : Vector3 R)
  | PVector2 (v : Vector2 R)
  | PTuple (t : list Z).

Definition KEY_BINDINGS : gmap string PyVal :=
  list_to_map [
    ("w", PVector3 (V3 0 1 0));
    ("a", PVector3 (V3 (-1) 0 0));
    ("s", PVector3 (V3 0 (-1) 0));
    ("d", PVector3 (V3 1 0 0));
    (" ", PVector3 (V3 0 0 1));
    ("q", PVector3 (V3 0 0 (-1)));
    ("i", PVector2 (V2 1 0));
    ("j", PVector2 (V2 0 1));
    ("k", PVector2 (V2 (-1) 0));
    ("l", PVector2 (V2 0 (-1))) ].

(** [v * k] for a float [k]: a vector is scaled, a tuple can only be
    repeated an integer number of times. *)
Definition mul_float (v : PyVal) (k : R) : result PyVal :=
  match v with
  | PVector3 v => Ok (PVector3 (vscale3 v k))
  | PVector2 v => Ok (PVector2 (vscale2 v k))
  | PTuple _ => Raise TypeError
  end.

(** [v.value] *)
Definition value_of (v : PyVal) : result (list R) :=
  match v with
  | PVector3 v => Ok (value3 v)
  | PVector2 v => Ok (value2 v)
  | PTuple _ => Raise AttributeError
  end.

(** What [draw] leaves on the canvas. *)
Inductive item :=
  | Polygon (corners : list (Vector2 R)) (fill : string)
  | Line (p1 p2 : Vector2 R).

Record Window := {
  shape : Shape R;
  w2 : R;
  h2 : R;
  mouse : R * R;
  paused : bool;
  centre : Vector2 R;
  camera : Camera;
  canvas : list item;    (* the items tagged 'clearable' *)
  scheduled : bool       (* a draw is due after [refresh] *) }.

(** [Window.__init__] *)
Definition Window_init (shape : Shape R) : Window :=
  {| shape := shape; w2 := 1366 / 2; h2 := 744 / 2; mouse := (0, 0);
     paused := false; centre := V2 (1366 / 2) (744 / 2);
     camera := Camera_init; canvas := []; scheduled := false |}.

(** The attributes of a shape object: [points] and [lines] are set by
    [reset] and the methods; the classes add their tables, the property
    [cur] and the methods.  Only the first two carry data here.  [AFaces]
    is the kind of value [draw] iterates over. *)
Inductive attr :=
  | APoints (l : list (Vector3 R))
  | ALines (l : list Edge)
  | AFaces (l : list (list nat))
  | AClass.

Definition Shape_attrs (self : Shape R) : gmap string attr :=
  list_to_map [
    ("points", APoints (points self)); ("lines", ALines (lines self));
    ("DEFAULT_POINTS", AClass); ("LINES", AClass); ("cur", AClass);
    ("reset", AClass); ("move_to", AClass); ("move_by", AClass);
    ("transform", AClass); ("optimise", AClass) ].

Definition getattr (self : Shape R) (name : string) : result attr :=
  from_option AttributeError (Shape_attrs self !! name).

(** Iterating an attribute as a list of faces, each a list of indices. *)
Definition as_faces (a : attr) : result (list (list nat)) :=
  match a with
  | AFaces l => Ok l
  | _ => Raise TypeError
  end.

Definition mouse_to_angles (self : Window) : (R * R) * Window :=
  let '(mx, my) := mouse self in
  let x := my * PI / 1000 in
  let y := - mx * PI / 1000 in
  ((x, y),
   {| shape := shape self; w2 := w2 self; h2 := h2 self; mouse := (0, 0);
      paused := paused self; centre := centre self; camera := camera self;
      canvas := canvas self; scheduled := scheduled self |}).

Definition index {X} (l : list X) (i : nat) : result X :=
  from_option IndexError (l !! i).

(** Lines 164-167 and 169-172 of [draw]. *)
Definition draw_faces (faces : list (list nat))
    (converted_points : list (Vector2 R)) : result (list item) :=
  for_each (λ f, corners ← for_each (index converted_points) f;
                 Ok (Polygon corners "#660033")) faces.

Definition draw_lines (lines : list Edge)
    (converted_points : list (Vector2 R)) : result (list item) :=
  for_each (λ l, '(p1, p2) ← unpack l;
                 p1_vect ← index converted_points p1;
                 p2_vect ← index converted_points p2;
                 Ok (Line p1_vect p2_vect)) lines.

(** Lines 150-177.  The pointer warp of line 154 delivers a motion event
    at the centre, which [turn_input] ignores. *)
Definition draw (self : Window) : result Window :=
  let '((rad_x, rad_z), self) := mouse_to_angles self in
  let camera := Camera_turn (camera self) rad_x rad_z in
  converted_points ←
    for_each (λ v, projection v camera (centre self)) (points (shape self));
  faces ← getattr (shape self) "faces";
  faces ← as_faces faces;
  polygons ← draw_faces faces converted_points;
  segments ← draw_lines (lines (shape self)) converted_points;
  shape ← transform (shape self) obj_rotator;
  Ok {| shape := shape; w2 := w2 self; h2 := h2 self; mouse := (0, 0);
        paused := paused self; centre := centre self; camera := camera;
        canvas := polygons ++ segments;
        scheduled := negb (paused self) |}.

(** The two event types the handlers tell apart, and any other one. *)
Inductive EventType := Motion | Key | Other.
Record Event := {
  type : EventType;
  char : string;
  x : R;
  y : R }.

Definition with_camera (self : Window) (c : Camera) : Window :=
  {| shape := shape self; w2 := w2 self; h2 := h2 self;
     mouse := mouse self; paused := paused self; centre := centre self;
     camera := c; canvas := canvas self; scheduled := scheduled self |}.

Definition with_mouse (self : Window) (m : R * R) : Window :=
  {| shape := shape self; w2 := w2 self; h2 := h2 self;
     mouse := m; paused := paused self; centre := centre self;
     camera := camera self; canvas := canvas self;
     scheduled := scheduled self |}.

(** The call of line 189 unpacks [v.value] into the arguments of [turn],
    which takes exactly two angles. *)
Definition turn_args (c : Camera) (args : list R) : result Camera :=
  match args with
  | [rad_x; rad_z] => Ok (Camera_turn c rad_x rad_z)
  | _ => Raise TypeError
  end.

(** Lines 179-189. *)
Definition turn_input (self : Window) (event : Event) : result Window :=
  if paused self then Ok self else
  match type event with
  | Motion =>
      if decide ([x event; y event] ≠ value2 (centre self)) then
        Ok (with_mouse self
              ((mouse self).1 + (x event - v2x (centre self)),
               (mouse self).2 + (y event - v2y (centre self))))
      else Ok self
  | Key =>
      let v := default (PTuple [0; 0]%Z) (KEY_BINDINGS !! char event) in
      v ← mul_float v (PI / 64);
      args ← value_of v;
      c ← turn_args (camera self) args;
      Ok (with_camera self c)
  | Other => Ok self
  end.

(** [self.camera.move(v)]: [pos += v*self.speed].  Modelled from the spec
    for a vector of two components: adding vectors of unequal length is an
    invalid input. *)
Definition move_value (c : Camera) (v : PyVal) : result Camera :=
  match v with
  | PVector3 v => Ok (Camera_move c v)
  | PVector2 _ => Raise InvalidInput
  | PTuple _ => Raise TypeError
  end.

(** Lines 191-195. *)
Definition move_input (self : Window) (event : Event) : result Window :=
  if paused self then Ok self else
  let v := default (PVector3 (V3 0 0 0)) (KEY_BINDINGS !! char event) in
  c ← move_value (camera self) v;
  Ok (with_camera self c).

(** Lines 29-38: the oval [draw_circle] asks the canvas for. *)
Record oval := { x0 : R; y0 : R; x1 : R; y1 : R; fill : string }.

Definition draw_circle (v : Vector2 R) (r : R) (color : string) : oval :=
  let x := v2x v in
  let y := v2y v in
  let r := if Rlt_dec r 0 then 0 else r in
  {| x0 := x - r; y0 := y - r; x1 := x + r; y1 := y + r; fill := color |}.

(** Line 11 *)
Definition CURSOR_VIS (b : bool) : string :=
  if b then EmptyString else "none".

(** The window together with what it shows beside the scene: the cursor
    and the text item created in line 117. *)
Record App := { window : Window; cursor : string; paused_text : string }.

Definition App_init (shape : Shape R) : App :=
  {| window := Window_init shape; cursor := "none";
     paused_text := EmptyString |}.

Definition with_paused (self : Window) (b : bool) : Window :=
  {| shape := shape self; w2 := w2 self; h2 := h2 self;
     mouse := mouse self; paused := b; centre := centre self;
     camera := camera self; canvas := canvas self;
     scheduled := scheduled self |}.

(** Lines 208-214.  [args] are the positional arguments after [self]; the
    method takes exactly one, the event. *)
Definition toggle_motion (self : App) (args : list Event) : result App :=
  match args with
  | [event] =>
      let w := with_paused (window self) (negb (paused (window self))) in
      let cursor := CURSOR_VIS (paused w) in
      if negb (paused w) then
        w' ← draw w;
        Ok {| window := w'; cursor := cursor; paused_text := EmptyString |}
      else Ok {| window := w; cursor := cursor; paused_text := "PAUSED" |}
  | _ => Raise TypeError
  end.

(** Lines 204-206: the call passes no event on. *)
Definition pause_motion (self : App) (event : Event) : result App :=
  if negb (paused (window self)) then toggle_motion self [] else Ok self.

(** Lines 219-220 *)
Definition reset_camera (self : App) (event : Event) : App :=
  {| window := with_camera (window self) Camera_init;
     cursor := cursor self; paused_text := paused_text self |}.

(** The shape after [n] frames, each of which ends with line 174. *)
Fixpoint spin (n : nat) (s : Shape R) : result (Shape R) :=
  match n with
  | O => Ok s
  | S n' => s' ← transform s obj_rotator; spin n' s'
  end.
End Main.

(** A transform that flattens the z axis, and the unit cube it is applied
    to in the examples. *)
Definition flatten_z : Matrix3 Qc :=
  M3 (V3 1 0 0)%Qc (V3 0 1 0)%Qc (V3 0 0 0)%Qc.
Definition unit_cube : Shape Qc := reset Cube_class.

(** The transform that sends every point to the origin. *)
Definition collapse_all : Matrix3 Qc := M3 v0 v0 v0.

Definition somewhere : Vector3 Qc := V3 (Q2Qc 1) (Q2Qc 2) (Q2Qc 3).

(** A shape whose third point repeats the first. *)
Definition repeated_corner : Shape Qc :=
  {| points := [V3 0 0 0; V3 0 0 1; V3 0 0 0]%Qc;
     lines := [ETuple 0 1; ESet {[ 1; 2 ]}]%nat |}.

(** main.py, lines 222-231: the scene.  Its coordinates are small multiples
    of one half, on which float arithmetic is exact. *)
Definition Vq (x y z : Q) : Vector3 Qc := V3 (Q2Qc x) (Q2Qc y) (Q2Qc z).

Definition myShape : result (Shape Qc) :=
  c1 ← Cube (Vq 0 0 0) m1;
  c2 ← Cube (Vq 0 0 1) m1;
  p1 ← SquarePyramid (Vq 0 0 2) m1;
  c3 ← Cube (Vq 2 0 0) m1;
  c4 ← Cube (Vq 2 0 1) m1;
  p2 ← SquarePyramid (Vq 2 0 2) m1;
  c5 ← Cube (Vq 1 0 1) m1;
  ShapeCombination [c1; c2; p1; c3; c4; p2; c5]
    (Vq (-3 # 2) (-1 # 2) (-3 # 2)) m1.

(** * Properties *)

(** ** Numbers *)

#[global] Instance NumberLaws_Qc : NumberLaws Qc.
Proof. split; intros x; simpl; ring. Qed.

#[global] Instance NumberLaws_R : NumberLaws R.
Proof. split; intros x; simpl; ring. Qed.

(** ** First occurrences *)

Section FirstOccurrences.
Context {X : Type} `{EqDecision X}.
Implicit Types l : list X.

Lemma first_occurrences_nil : first_occurrences (@nil X) = [].
Proof. done. Qed.

Lemma filter_take_ext (e : list (nat * X)) l1 l2 :
  (∀ ix, ix ∈ e → take ix.1 l1 = take ix.1 l2) →
  filter (λ ix : nat * X, ix.2 ∉ take ix.1 l1) e =
  filter (λ ix : nat * X, ix.2 ∉ take ix.1 l2) e.
Proof.
  induction e as [|ix e IH]; intros He; [done|].
  rewrite !filter_cons, (He ix) by left.
  rewrite IH; [done|]. intros ??. apply He. by right.
Qed.

Lemma first_occurrences_snoc l x :
  first_occurrences (l ++ [x]) =
  first_occurrences l ++ (if bool_decide (x ∈ l) then [] else [x]).
Proof.
  unfold first_occurrences, enumerate.
  rewrite imap_app, filter_app, fmap_app. f_equal.
  - f_equal. apply filter_take_ext.
    intros ix (i & z & -> & Hz)%elem_of_lookup_imap. simpl.
    apply take_app_le. apply lookup_lt_Some in Hz. lia.
  - simpl. rewrite filter_cons, filter_nil. simpl.
    rewrite Nat.add_0_r, take_app_length.
    destruct (decide (x ∉ l)); case_bool_decide; done.
Qed.

Lemma elem_of_first_occurrences l x : x ∈ first_occurrences l ↔ x ∈ l.
Proof.
  induction l as [|y l IH] using rev_ind; [done|].
  rewrite first_occurrences_snoc, !elem_of_app, IH.
  case_bool_decide; [|done].
  split; [intros [?|[]%elem_of_nil]; by left|].
  intros [?|Hx]; [by left|]. apply list_elem_of_singleton in Hx. subst. by left.
Qed.

Lemma NoDup_first_occurrences l : NoDup (first_occurrences l).
Proof.
  induction l as [|y l IH] using rev_ind; [constructor|].
  rewrite first_occurrences_snoc. case_bool_decide.
  - by rewrite app_nil_r.
  - apply NoDup_app. split_and!; [done| |apply NoDup_singleton].
    intros z Hz ->%list_elem_of_singleton.
    by apply (proj1 (elem_of_first_occurrences l y)) in Hz.
Qed.

Lemma first_occurrences_NoDup l : NoDup l → first_occurrences l = l.
Proof.
  induction l as [|y l IH] using rev_ind; [done|].
  intros [Hl [Hy _]]%NoDup_app. rewrite first_occurrences_snoc, IH by done.
  rewrite bool_decide_eq_false_2; [done|].
  intros ?. eapply Hy; [done|]. by left.
Qed.

(** The loop of lines 51-55 computes the first occurrences. *)
Lemma foldl_keep_first (f : list X → X → list X) l :
  (∀ acc x, f acc x = if bool_decide (x ∈ acc) then acc else acc ++ [x]) →
  foldl f [] l = first_occurrences l.
Proof.
  intros Hf. induction l as [|y l IH] using rev_ind; [done|].
  rewrite foldl_snoc, IH, Hf, first_occurrences_snoc.
  rewrite (bool_decide_ext _ _ (elem_of_first_occurrences l y)).
  case_bool_decide; by rewrite ?app_nil_r.
Qed.
End FirstOccurrences.

(** ** The error monad *)

Lemma for_each_Ok {X Y} (f : X → result Y) (g : X → Y) l :
  Forall (λ x, f x = Ok (g x)) l → for_each f l = Ok (map g l).
Proof.
  induction 1 as [|x l Hx _ IH]; [done|]. simpl.
  rewrite Hx. simpl. rewrite IH. done.
Qed.

Lemma for_each_inv {X Y} (f : X → result Y) l ys :
  for_each f l = Ok ys → Forall2 (λ x y, f x = Ok y) l ys.
Proof.
  revert ys. induction l as [|x l IH]; simpl; intros ys Hys.
  - injection Hys as <-. constructor.
  - destruct (f x) as [y|] eqn:Hx; [|done]. simpl in Hys.
    destruct (for_each f l) as [ys'|] eqn:Hl; [|done]. simpl in Hys.
    injection Hys as <-. constructor; auto.
Qed.

(** ** Unpacking an edge *)

Lemma elements_pair (s : gset nat) i j :
  elements s = [i; j] → s = {[ i; j ]} ∧ i ≠ j.
Proof.
  intros Hs. split.
  - apply set_eq. intros x. rewrite <- elem_of_elements, Hs.
    by rewrite elem_of_cons, list_elem_of_singleton, elem_of_union,
      !elem_of_singleton.
  - pose proof (NoDup_elements s) as Hnd. rewrite Hs in Hnd.
    apply NoDup_cons in Hnd as [Hi _]. intros ->. apply Hi. by left.
Qed.

Lemma unpack_Ok l i j :
  unpack l = Ok (i, j) → edge_set l = {[ i; j ]}.
Proof.
  destruct l as [s|a b]; simpl.
  - destruct (elements s) as [|a [|b [|c e]]] eqn:Hs; try done.
    intros [= -> ->]. by apply elements_pair.
  - by intros [= -> ->].
Qed.

Lemma unpack_edge_ok n l :
  edge_ok n l → ∃ i j, unpack l = Ok (i, j) ∧ i < n ∧ j < n.
Proof.
  destruct l as [s|a b]; simpl.
  - intros [Hsz Hall]. unfold size, set_size in Hsz. simpl in Hsz.
    destruct (elements s) as [|a [|b [|c e]]] eqn:Hs; try done.
    exists a, b. split; [done|].
    split; apply Hall, elem_of_elements; rewrite Hs; [by left|].
    right. by left.
  - intros [??]. by exists a, b.
Qed.

Lemma set_omap_pair (f : nat → option nat) i j ci cj :
  f i = Some ci → f j = Some cj →
  set_omap f ({[ i; j ]} : gset nat) = ({[ ci; cj ]} : gset nat).
Proof.
  intros Hi Hj. apply set_eq. intros x. rewrite elem_of_set_omap. split.
  - intros (y & Hy & Hfy). rewrite elem_of_union, !elem_of_singleton.
    apply elem_of_union in Hy as [->%elem_of_singleton| ->%elem_of_singleton];
      [left|right]; congruence.
  - intros [->%elem_of_singleton | ->%elem_of_singleton]%elem_of_union.
    + exists i. split; [|done]. apply elem_of_union. left.
      by apply elem_of_singleton.
    + exists j. split; [|done]. apply elem_of_union. right.
      by apply elem_of_singleton.
Qed.

(** ** The scan of the points in [optimise] *)

Section Scan.
Context {A : Type} `{Number A}.
Implicit Types (v w : Vector3 A) (p pts : list (Vector3 A)).

Lemma value3_inj v w : value3 v = value3 w ↔ v = w.
Proof.
  split; [|by intros ->]. destruct v, w. unfold value3. simpl.
  by intros [= -> -> ->].
Qed.

Lemma find_seen_list_find v seen j :
  find_seen v seen j =
  (λ r : nat * Vector3 A, (j + r.1)%nat) <$> list_find (λ w, w = v) seen.
Proof.
  revert j. induction seen as [|w ws IH]; intros j; [done|].
  simpl. unfold decide_rel.
  destruct (decide (w = v)) as [->|Hne].
  - rewrite bool_decide_eq_true_2 by done. simpl. f_equal. lia.
  - rewrite bool_decide_eq_false_2
      by (intros Heq%value3_inj; by apply Hne).
    rewrite IH. destruct (list_find _ ws) as [[k x]|]; simpl; [|done].
    f_equal. lia.
Qed.

Lemma new_index_is_Some pts i :
  i < length pts → is_Some (new_index pts i).
Proof.
  intros [v Hv]%lookup_lt_is_Some_2. unfold new_index. rewrite Hv. simpl.
  apply fmap_is_Some, (list_find_elem_of _ _ v); [|done].
  apply elem_of_first_occurrences. by eapply list_elem_of_lookup_2.
Qed.

Lemma new_index_None pts i : length pts ≤ i → new_index pts i = None.
Proof.
  intros Hi. unfold new_index. by rewrite (lookup_ge_None_2 pts i).
Qed.

Lemma new_index_lt pts i k :
  new_index pts i = Some k → k < length (first_occurrences pts).
Proof.
  unfold new_index. destruct (pts !! i) as [v|]; [|done]. simpl.
  destruct (list_find _ _) as [[k' w]|] eqn:Hf; [|done].
  intros [= <-]. apply list_find_Some in Hf as [Hk _].
  by eapply lookup_lt_Some.
Qed.

Lemma new_index_snoc_ne p v i :
  i ≠ length p → new_index (p ++ [v]) i = new_index p i.
Proof.
  intros Hi. destruct (decide (i < length p)) as [Hlt|Hge].
  - destruct (new_index_is_Some p i Hlt) as [k Hk]. rewrite Hk.
    unfold new_index in *. rewrite lookup_app_l by done.
    destruct (p !! i) as [w|]; [|done]. simpl in *.
    destruct (list_find _ (first_occurrences p)) as [[k' x]|] eqn:Hf;
      [|done].
    rewrite first_occurrences_snoc.
    by rewrite (list_find_app_l _ _ _ _ _ Hf).
  - rewrite !new_index_None; [done|lia|rewrite length_app; simpl; lia].
Qed.

(** What the loop has established after the points of [p]. *)
Record scan_inv (p : list (Vector3 A)) (st : scan A) : Prop := {
  inv_seen : seen_vects st = first_occurrences p;
  inv_offset : (offset st + length (seen_vects st))%nat = length p;
  inv_changes : ∀ i, changes st !! i = new_index p i }.

Lemma scan_point_inv p st v :
  scan_inv p st → scan_inv (p ++ [v]) (scan_point st (length p, v)).
Proof.
  intros [Hseen Hoff Hch]. unfold scan_point.
  rewrite find_seen_list_find, Hseen. rewrite Hseen in Hoff.
  destruct (list_find _ (first_occurrences p)) as [[j w]|] eqn:Hf; simpl.
  - pose proof Hf as (Hj & -> & _)%list_find_Some.
    assert (v ∈ p) as Hin.
    { apply elem_of_first_occurrences. by eapply list_elem_of_lookup_2. }
    assert (first_occurrences (p ++ [v]) = first_occurrences p) as Hfo.
    { by rewrite first_occurrences_snoc, bool_decide_eq_true_2, app_nil_r. }
    split; simpl.
    + by rewrite Hfo.
    + rewrite length_app. simpl. lia.
    + intros i. destruct (decide (i = length p)) as [->|Hne].
      * rewrite lookup_insert_eq. unfold new_index.
        rewrite list_lookup_middle by done. simpl. by rewrite Hfo, Hf.
      * rewrite lookup_insert_ne by done.
        by rewrite Hch, new_index_snoc_ne.
  - pose proof Hf as Hnone. rewrite list_find_None in Hnone.
    assert (v ∉ p) as Hin.
    { intros Hv%elem_of_first_occurrences.
      by eapply (proj1 (Forall_forall _ _) Hnone). }
    assert (first_occurrences (p ++ [v]) = first_occurrences p ++ [v])
      as Hfo.
    { by rewrite first_occurrences_snoc, bool_decide_eq_false_2. }
    split; simpl.
    + by rewrite Hfo.
    + rewrite !length_app. simpl. lia.
    + intros i. destruct (decide (i = length p)) as [->|Hne].
      * rewrite lookup_insert_eq. unfold new_index.
        rewrite list_lookup_middle by done. simpl.
        rewrite Hfo, (list_find_app_r _ _ _ Hf). simpl.
        rewrite decide_True by done. simpl.
        f_equal. lia.
      * rewrite lookup_insert_ne by done.
        by rewrite Hch, new_index_snoc_ne.
Qed.

Lemma scan_points_inv pts : scan_inv pts (scan_points pts).
Proof.
  unfold scan_points, enumerate.
  induction pts as [|v p IH] using rev_ind.
  - split; simpl; [done..|]. intros i. by rewrite lookup_empty.
  - rewrite imap_app, foldl_app. simpl. rewrite Nat.add_0_r.
    by apply scan_point_inv.
Qed.

Lemma rewrite_line_spec pts l :
  edge_ok (length pts) l →
  rewrite_line (changes (scan_points pts)) l =
  Ok (ESet (set_omap (new_index pts) (edge_set l))).
Proof.
  intros (i & j & Hu & Hi & Hj)%unpack_edge_ok.
  destruct (scan_points_inv pts) as [_ _ Hch].
  destruct (new_index_is_Some pts i Hi) as [ci Hci].
  destruct (new_index_is_Some pts j Hj) as [cj Hcj].
  unfold rewrite_line. rewrite Hu. simpl.
  rewrite !Hch, Hci, Hcj. simpl.
  by rewrite (unpack_Ok _ _ _ Hu), (set_omap_pair _ _ _ _ _ Hci Hcj).
Qed.

Lemma optimise_well_formed (self : Shape A) :
  well_formed self → optimise self = Ok (optimise_spec self).
Proof.
  intros Hwf. unfold optimise, optimise_spec.
  rewrite (for_each_Ok _
    (λ l, ESet (set_omap (new_index (points self)) (edge_set l)))).
  - simpl. f_equal. f_equal.
    + apply scan_points_inv.
    + by apply foldl_keep_first.
  - eapply Forall_impl; [exact Hwf|]. intros l Hl.
    by apply rewrite_line_spec.
Qed.
End Scan.

(** ** Moving and transforming *)

Section Operations.
Context {A : Type} `{Number A}.
Implicit Types (self : Shape A) (pos : Vector3 A) (m : Matrix3 A).

Lemma move_to_Ok self pos anchor :
  points self !! 0%nat = Some anchor →
  move_to self pos =
  Ok {| points := map (λ v, vadd3 (vsub3 v anchor) pos) (points self);
        lines := lines self |}.
Proof.
  intros Ha. unfold move_to.
  rewrite (for_each_Ok _ (λ v, vadd3 (vsub3 v anchor) pos)); [done|].
  apply Forall_forall. intros v _. unfold cur. by rewrite Ha.
Qed.

Lemma move_to_nil self pos : points self = [] → move_to self pos = Ok self.
Proof. destruct self as [pts ls]. simpl. by intros ->. Qed.

Lemma move_to_inv self pos self' :
  move_to self pos = Ok self' →
  length (points self') = length (points self) ∧ lines self' = lines self.
Proof.
  destruct (points self) as [|a pts] eqn:Hp.
  - rewrite move_to_nil by done. intros [= <-]. by rewrite Hp.
  - rewrite (move_to_Ok _ _ a) by by rewrite Hp.
    intros [= <-]. simpl. by rewrite length_map, Hp.
Qed.

Lemma for_each_elem {X Y} (f : X → result Y) l ys y :
  for_each f l = Ok ys → y ∈ ys → ∃ x, x ∈ l ∧ f x = Ok y.
Proof.
  intros Hl%for_each_inv Hy. induction Hl as [|x y' l ys Hx _ IH].
  - by apply elem_of_nil in Hy.
  - apply elem_of_cons in Hy as [->|Hy].
    + exists x. split; [by left|done].
    + destruct (IH Hy) as (x' & ? & ?). exists x'. split; [by right|done].
Qed.

Lemma rewrite_line_inv (ch : gmap nat nat) l l' :
  rewrite_line ch l = Ok l' →
  ∃ i j ci cj, unpack l = Ok (i, j) ∧ ch !! i = Some ci ∧
               ch !! j = Some cj ∧ l' = ESet {[ ci; cj ]}.
Proof.
  unfold rewrite_line. destruct (unpack l) as [[i j]|] eqn:Hu; [|done].
  simpl. destruct (ch !! i) as [ci|] eqn:Hi; [|done].
  destruct (ch !! j) as [cj|] eqn:Hj; [|done]. simpl.
  intros [= <-]. by exists i, j, ci, cj.
Qed.

(** [optimise] returns a state only on well-formed shapes. *)
Lemma optimise_Ok_well_formed self self' :
  optimise self = Ok self' → well_formed self.
Proof.
  unfold optimise.
  destruct (for_each _ (lines self)) as [ls|] eqn:Hls; [|done].
  intros _. apply for_each_inv in Hls.
  destruct (scan_points_inv (points self)) as [_ _ Hch].
  assert (∀ i k, changes (scan_points (points self)) !! i = Some k →
                 i < length (points self)) as Hlt.
  { intros i k Hi. destruct (decide (i < length (points self))); [done|].
    rewrite Hch, new_index_None in Hi by lia. done. }
  unfold well_formed. induction Hls as [|l l' ls0 ls' Hl _ IH]; [constructor|].
  constructor; [|exact IH].
  apply rewrite_line_inv in Hl as (i & j & ci & cj & Hu & Hi & Hj & _).
  apply Hlt in Hi, Hj. destruct l as [s|a b]; simpl in *.
  - destruct (elements s) as [|a [|b [|c e]]] eqn:Hs; try done.
    injection Hu as -> ->. split.
    + unfold size, set_size. simpl. by rewrite Hs.
    + intros k Hk%elem_of_elements. rewrite Hs in Hk.
      apply elem_of_cons in Hk as [->|Hk]; [done|].
      by apply list_elem_of_singleton in Hk as ->.
  - by injection Hu as -> ->.
Qed.

(** Whatever state [optimise] starts from, the state it returns has valid
    edges. *)
Lemma optimise_valid_edges self self' :
  optimise self = Ok self' → valid_edges self'.
Proof.
  unfold optimise.
  destruct (for_each _ (lines self)) as [ls|] eqn:Hls; [|done].
  simpl. intros [= <-] l k Hl Hk. simpl in *.
  rewrite (foldl_keep_first append_new) in Hl by done.
  apply (proj1 (elem_of_first_occurrences ls l)) in Hl.
  destruct (for_each_elem _ _ _ _ Hls Hl) as (l0 & _ & Hr).
  apply rewrite_line_inv in Hr as (i & j & ci & cj & _ & Hi & Hj & ->).
  destruct (scan_points_inv (points self)) as [Hseen _ Hch].
  rewrite Hch in Hi, Hj. apply new_index_lt in Hi, Hj.
  rewrite Hseen. simpl in Hk.
  apply elem_of_union in Hk as [->%elem_of_singleton| ->%elem_of_singleton];
    done.
Qed.

Lemma move_to_valid_edges self pos self' :
  valid_edges self → move_to self pos = Ok self' → valid_edges self'.
Proof.
  intros Hv [Hlen Hls]%move_to_inv l i. rewrite Hlen, Hls. apply Hv.
Qed.

Lemma move_by_valid_edges self pos :
  valid_edges self → valid_edges (move_by self pos).
Proof. intros Hv l i. simpl. rewrite length_map. apply Hv. Qed.

Lemma transform_valid_edges self m self' :
  valid_edges self → transform self m = Ok self' → valid_edges self'.
Proof.
  intros Hv. unfold transform. case_bool_decide.
  - apply optimise_valid_edges.
  - intros [= <-] l i. simpl. rewrite length_map. apply Hv.
Qed.

Lemma well_formed_valid_edges self : well_formed self → valid_edges self.
Proof.
  intros Hwf l i Hl Hi.
  eapply Forall_forall in Hwf; [|exact Hl].
  destruct l as [s|a b]; simpl in *.
  - destruct Hwf as [_ Hall]. by apply Hall.
  - destruct Hwf as [??].
    apply elem_of_union in Hi as [->%elem_of_singleton| ->%elem_of_singleton];
      done.
Qed.

Lemma Cube_class_well_formed : well_formed (reset (@Cube_class A _)).
Proof. unfold well_formed. apply (bool_decide_unpack _). by vm_compute. Qed.

Lemma SquarePyramid_class_well_formed :
  well_formed (reset (@SquarePyramid_class A _)).
Proof. unfold well_formed. apply (bool_decide_unpack _). by vm_compute. Qed.

Lemma Shape_init_valid_edges cls shift trans self :
  valid_edges (reset cls) →
  Shape_init cls shift trans = Ok self → valid_edges self.
Proof.
  intros Hv. unfold Shape_init.
  destruct (move_to (reset cls) shift) as [s1|] eqn:H1; [|done]. simpl.
  eauto using transform_valid_edges, move_to_valid_edges.
Qed.

Lemma ShapeCombination_valid_edges shapes shift trans self :
  ShapeCombination shapes shift trans = Ok self → valid_edges self.
Proof.
  unfold ShapeCombination.
  destruct (fold_result _ _ _) as [s1|]; [|done]. simpl.
  destruct (move_to _ _) as [s2|]; [|done]. simpl.
  destruct (transform _ _) as [s3|]; [|done]. simpl.
  apply optimise_valid_edges.
Qed.

(** The constructors of the table-driven shapes never raise. *)
Lemma Shape_init_total cls shift trans :
  well_formed (reset cls) →
  ∃ self, Shape_init cls shift trans = Ok self.
Proof.
  intros Hwf. unfold Shape_init.
  destruct (move_to (reset cls) shift) as [s1|e] eqn:H1.
  - simpl. unfold transform. case_bool_decide; [|by eexists].
    eexists. apply optimise_well_formed.
    apply move_to_inv in H1 as [Hlen Hls].
    unfold well_formed in *. simpl. by rewrite length_map, Hlen, Hls.
  - destruct (points (reset cls)) as [|a pts] eqn:Hp.
    + by rewrite move_to_nil in H1.
    + by rewrite (move_to_Ok _ _ a) in H1 by by rewrite Hp.
Qed.
End Operations.

(** ** A second pass *)

Section SecondPass.
Context {A : Type} `{Number A}.
Implicit Types (self : Shape A) (pts : list (Vector3 A)).

Lemma new_index_NoDup pts i :
  NoDup pts → i < length pts → new_index pts i = Some i.
Proof.
  intros Hnd [v Hv]%lookup_lt_is_Some_2. unfold new_index.
  rewrite Hv, first_occurrences_NoDup by done. simpl.
  rewrite (proj2 (list_find_Some (λ w, w = v) pts i v)); [done|].
  split_and!; [done..|]. intros j w Hw Hlt ->.
  pose proof (NoDup_lookup _ _ _ _ Hnd Hw Hv). lia.
Qed.

Lemma set_omap_new_index_NoDup pts (s : gset nat) :
  NoDup pts → set_Forall (λ i, i < length pts) s →
  set_omap (new_index pts) s = s.
Proof.
  intros Hnd Hs. apply set_eq. intros k. rewrite elem_of_set_omap. split.
  - intros (i & Hi & Hk). rewrite new_index_NoDup in Hk by auto.
    by injection Hk as <-.
  - intros Hk. exists k. split; [done|]. apply new_index_NoDup; auto.
Qed.

(** The state [optimise] returns has no repeated point, no repeated edge,
    and only sets as edges. *)
Lemma optimise_result self self' :
  optimise self = Ok self' →
  NoDup (points self') ∧ NoDup (lines self') ∧
  Forall (λ l, ∃ s, l = ESet s) (lines self').
Proof.
  unfold optimise.
  destruct (for_each _ (lines self)) as [ls|] eqn:Hls; [|done].
  simpl. intros [= <-]. simpl.
  destruct (scan_points_inv (points self)) as [-> _ _].
  rewrite (foldl_keep_first append_new) by done.
  split_and!; [apply NoDup_first_occurrences..|].
  apply Forall_forall. intros l Hl.
  apply (proj1 (elem_of_first_occurrences ls l)) in Hl.
  destruct (for_each_elem _ _ _ _ Hls Hl) as (l0 & _ & Hr).
  apply rewrite_line_inv in Hr as (i & j & ci & cj & _ & _ & _ & ->).
  by eexists.
Qed.

(** X4: where the first pass left every edge with two indices, a second
    pass changes nothing. *)
Lemma optimise_twice_same self self' :
  optimise self = Ok self' →
  (∀ l, l ∈ lines self' → size (edge_set l) = 2) →
  optimise self' = Ok self'.
Proof.
  intros Ho Hsz.
  pose proof (optimise_valid_edges _ _ Ho) as Hv.
  destruct (optimise_result _ _ Ho) as (Hp & Hl & Hset).
  assert (well_formed self') as Hwf.
  { apply Forall_forall. intros l Hin.
    destruct (proj1 (Forall_forall _ _) Hset l Hin) as [s ->]. simpl.
    split; [exact (Hsz _ Hin)|]. intros i Hi. by eapply Hv. }
  rewrite (optimise_well_formed _ Hwf). f_equal.
  unfold optimise_spec. destruct self' as [pts ls]. simpl in *. f_equal.
  - by apply first_occurrences_NoDup.
  - rewrite <- (first_occurrences_NoDup ls Hl) at 2. f_equal.
    rewrite <- (map_id ls) at 2. apply map_ext_Forall.
    apply Forall_forall. intros l Hin.
    destruct (proj1 (Forall_forall _ _) Hset l Hin) as [s ->]. simpl.
    f_equal. apply set_omap_new_index_NoDup; [done|].
    intros i Hi. by eapply Hv.
Qed.
End SecondPass.

(** ** The claims about shapes.py *)

(** C2, as amended: on every shape whose edges each hold two indices valid
    in its point list, and on no other, [optimise] returns a state; there it
    retains the first occurrence of every point value in order, sends every
    edge through the old-to-new index mapping as an unordered pair and keeps
    the first occurrence of every resulting edge; the combination of unit
    cubes at (0,0,0) and (0,0,1) ends with fewer than 16 points and no two
    edges equal as unordered pairs, and a further [optimise] leaves it as
    it is. *)
Theorem optimise_keeps_first_occurrences :
  (∀ (A : Type) (N : Number A) (self : Shape A),
     (well_formed self → optimise self = Ok (optimise_spec self)) ∧
     (∀ self', optimise self = Ok self' →
               well_formed self ∧ self' = optimise_spec self)) ∧
  (∃ s : Shape Qc,
     two_cubes = Ok s ∧ optimise s = Ok s ∧
     length (points s) < 16 ∧ NoDup (edge_set <$> lines s)).
Proof.
  split.
  - intros A N self. split; [apply optimise_well_formed|].
    intros self' Ho.
    pose proof (optimise_Ok_well_formed _ _ Ho) as Hwf.
    rewrite (optimise_well_formed _ Hwf) in Ho. by injection Ho as <-.
  - eexists. split; [vm_compute; reflexivity|].
    split; [vm_compute; reflexivity|].
    split; [vm_compute; lia|].
    apply (bool_decide_unpack _). by vm_compute.
Qed.

Lemma optimise_keeps_first_occurrences_witness :
  well_formed repeated_corner ∧
  optimise repeated_corner = Ok (optimise_spec repeated_corner).
Proof.
  assert (well_formed repeated_corner) as Hwf.
  { unfold well_formed. apply (bool_decide_unpack _). vm_compute. exact I. }
  split; [exact Hwf|].
  exact (proj1 (proj1 optimise_keeps_first_occurrences Qc _ repeated_corner)
           Hwf).
Defined.

(** C2, as stated, fails: the unit cube flattened along z is a state the
    program reaches, some of its edges hold one index, and [optimise] raises
    ValueError on it instead of returning the deduplicated shape. *)
Lemma optimise_raises_on_collapsed_edge :
  (∃ s : Shape Qc,
     transform unit_cube flatten_z = Ok s ∧
     ESet {[ 0%nat ]} ∈ lines s ∧
     optimise s = Raise ValueError ∧
     optimise s ≠ Ok (optimise_spec s)) ∧
  ¬ (∀ self : Shape Qc, optimise self = Ok (optimise_spec self)).
Proof.
  assert (∃ s : Shape Qc,
            transform unit_cube flatten_z = Ok s ∧
            ESet {[ 0%nat ]} ∈ lines s ∧
            optimise s = Raise ValueError) as (s & Ht & Hl & Ho).
  { eexists. split; [vm_compute; reflexivity|].
    split; [left|vm_compute; reflexivity]. }
  split.
  - exists s. split_and!; [done..|]. by rewrite Ho.
  - intros Hall. specialize (Hall s). by rewrite Ho in Hall.
Qed.

(** C3, as amended: every index in an edge of a shape built by [Cube],
    [SquarePyramid] or [ShapeCombination] and changed by any sequence of
    calls of [move_to], [move_by], [transform] and [optimise] none of which
    raises is smaller than the number of points of the shape. *)
Theorem reachable_valid_edges (A : Type) (N : Number A) (s : Shape A) :
  reachable s → valid_edges s.
Proof.
  induction 1 as [shift trans s Hs|shift trans s Hs|shapes shift trans s _ _ Hs
                 |s pos s' _ IH Hs|s pos _ IH|s m s' _ IH Hs|s s' _ IH Hs].
  - eapply Shape_init_valid_edges; [|exact Hs].
    apply well_formed_valid_edges, Cube_class_well_formed.
  - eapply Shape_init_valid_edges; [|exact Hs].
    apply well_formed_valid_edges, SquarePyramid_class_well_formed.
  - by eapply ShapeCombination_valid_edges.
  - by eapply move_to_valid_edges.
  - by apply move_by_valid_edges.
  - by eapply transform_valid_edges.
  - by eapply optimise_valid_edges.
Qed.

Lemma reachable_valid_edges_witness :
  ∃ s : Shape Qc, transform unit_cube flatten_z = Ok s ∧ valid_edges s.
Proof.
  assert (∃ c : Shape Qc, Cube v0 m1 = Ok c ∧
                          ∃ s, transform c flatten_z = Ok s ∧
                               transform unit_cube flatten_z = Ok s)
    as (c & Hc & s & Hs & Hu).
  { eexists. split; [vm_compute; reflexivity|].
    eexists. split; vm_compute; reflexivity. }
  exists s. split; [exact Hu|].
  apply (reachable_valid_edges Qc _ s).
  eapply reach_transform; [|exact Hs]. eapply reach_Cube. exact Hc.
Defined.

(** A call returns exactly when the result monad says so, with the same
    state. *)
Lemma optimise_call_returns (A : Type) (N : Number A) (self self' : Shape A) :
  optimise_call self = (self', None) ↔ optimise self = Ok self'.
Proof.
  unfold optimise_call, optimise.
  destruct (for_each _ (lines self)) as [ls|e]; simpl.
  - split; [by intros [= <-]|by intros [= <-]].
  - split; [by intros [= _]|done].
Qed.

Lemma transform_call_returns (A : Type) (N : Number A)
    (self self' : Shape A) (m : Matrix3 A) :
  transform_call self m = (self', None) ↔ transform self m = Ok self'.
Proof.
  unfold transform_call, transform. case_bool_decide.
  - apply optimise_call_returns.
  - split; [by intros [= <-]|by intros [= <-]].
Qed.

(** C3, as stated, fails: a call that raises leaves stale edges behind.
    On the cube built with the transform that flattens z, [transform] with
    the all-zero matrix assigns the mapped points, [optimise] replaces them
    by the single point they merge into, and the rewriting of the edges then
    raises ValueError at an edge of one index; the object is left with one
    point and its old edges, which hold indices up to 3. *)
Lemma raising_transform_leaves_stale_edges :
  ∃ c c' : Shape Qc,
    Cube v0 flatten_z = Ok c ∧ reachable c ∧
    transform_call c collapse_all = (c', Some ValueError) ∧
    length (points c') = 1 ∧
    ESet {[ 2%nat; 3%nat ]} ∈ lines c' ∧
    ¬ valid_edges c'.
Proof.
  assert (∃ c c' : Shape Qc,
            Cube v0 flatten_z = Ok c ∧
            transform_call c collapse_all = (c', Some ValueError) ∧
            length (points c') = 1 ∧
            bool_decide (ESet {[ 2%nat; 3%nat ]} ∈ lines c') = true)
    as (c & c' & Hc & Ht & Hlen & Hin).
  { eexists _, _. split; [vm_compute; reflexivity|].
    split; [vm_compute; reflexivity|]. split; vm_compute; reflexivity. }
  apply bool_decide_eq_true in Hin.
  exists c, c'. split_and!; [done|by eapply reach_Cube|done..|].
  intros Hv. specialize (Hv _ 3%nat Hin). rewrite Hlen in Hv.
  assert (3 < 1) as Hlt; [|lia].
  apply Hv. apply elem_of_union. right. by apply elem_of_singleton.
Qed.

(** C7: [move_to(t)] on a shape with at least one point puts the anchor,
    point 0, at [t], turns every point [p] into [p - anchor + t] for the old
    anchor, and leaves the edges alone. *)
Theorem move_to_anchor (A : Type) (N : Number A) (L : NumberLaws A)
    (self : Shape A) (t : Vector3 A) :
  points self ≠ [] →
  ∃ anchor self',
    points self !! 0%nat = Some anchor ∧
    move_to self t = Ok self' ∧
    points self' !! 0%nat = Some t ∧
    length (points self') = length (points self) ∧
    (∀ i p, points self !! i = Some p →
            points self' !! i = Some (vadd3 (vsub3 p anchor) t)) ∧
    lines self' = lines self.
Proof.
  intros Hne. destruct (points self) as [|anchor pts] eqn:Hp; [done|].
  assert (points self !! 0%nat = Some anchor) as Ha by by rewrite Hp.
  exists anchor,
    {| points := map (λ v, vadd3 (vsub3 v anchor) t) (points self);
       lines := lines self |}.
  rewrite <- Hp. split; [done|].
  split; [by apply move_to_Ok|]. simpl. split_and!.
  - rewrite Hp. simpl. f_equal. destruct anchor as [x y z], t as [tx ty tz].
    unfold vadd3, vsub3. simpl. by rewrite !nsub_diag, !nadd_0_l.
  - by rewrite length_map.
  - intros i p Hi.
    change (((λ v, vadd3 (vsub3 v anchor) t) <$> points self) !! i =
            Some (vadd3 (vsub3 p anchor) t)).
    by rewrite list_lookup_fmap, Hi.
  - done.
Qed.

Lemma move_to_anchor_witness :
  ∃ self', move_to unit_cube somewhere = Ok self' ∧
           points self' !! 0%nat = Some somewhere.
Proof.
  assert (points unit_cube ≠ []) as Hne by discriminate.
  destruct (move_to_anchor Qc _ _ unit_cube somewhere Hne)
    as (anchor & self' & _ & Hm & H0 & _).
  exists self'. split; [exact Hm|exact H0].
Defined.

(** C8: [transform(m)] replaces every point [p] by [m * p]; it then runs
    [optimise] when the determinant of [m] is zero, and only then: with a
    nonzero determinant the mapped points and the edges are the result, so
    the number of points and the edge list are unchanged. *)
Theorem transform_optimises_iff_singular (A : Type) (N : Number A)
    (self : Shape A) (m : Matrix3 A) :
  let mapped := {| points := map (mulv m) (points self);
                   lines := lines self |} in
  (det m = n0 → transform self m = optimise mapped) ∧
  (det m ≠ n0 →
     transform self m = Ok mapped ∧
     length (points mapped) = length (points self) ∧
     lines mapped = lines self).
Proof.
  intros mapped. unfold transform. fold mapped. split; intros Hd.
  - by rewrite bool_decide_eq_true_2.
  - rewrite bool_decide_eq_false_2 by done.
    split; [done|]. simpl. by rewrite length_map.
Qed.

Lemma transform_optimises_iff_singular_witness :
  transform unit_cube flatten_z =
    optimise {| points := map (mulv flatten_z) (points unit_cube);
                lines := lines unit_cube |} ∧
  transform unit_cube m1 =
    Ok {| points := map (mulv m1) (points unit_cube);
          lines := lines unit_cube |}.
Proof.
  assert (det flatten_z = n0) as Hz by (vm_compute; reflexivity).
  assert (det (m1 : Matrix3 Qc) ≠ n0) as Hnz by (vm_compute; discriminate).
  split.
  - exact (proj1 (transform_optimises_iff_singular Qc _ unit_cube flatten_z) Hz).
  - exact (proj1 (proj2 (transform_optimises_iff_singular Qc _ unit_cube m1)
                    Hnz)).
Defined.

(** C9 (the code departs from it): flattening the unit cube merges the two
    ends of each of its edges along z, [optimise] leaves those edges as
    one-element sets, and a second [optimise] raises on unpacking them; for the same
    reason [ShapeCombination] with the flattening transform, which runs
    [optimise] twice, raises. *)
Theorem optimise_twice_raises :
  (∃ s1 : Shape Qc,
     optimise {| points := map (mulv flatten_z) (points unit_cube);
                 lines := lines unit_cube |} = Ok s1 ∧
     optimise s1 = Raise ValueError) ∧
  (∃ c : Shape Qc,
     Cube v0 m1 = Ok c ∧
     ShapeCombination [c] v0 flatten_z = Raise ValueError).
Proof.
  split.
  - eexists. split; vm_compute; reflexivity.
  - eexists. split; vm_compute; reflexivity.
Qed.

(** ** The claims about main.py *)

Section MainProperties.
Import Main.
Local Open Scope R_scope.

Lemma for_each_Raise {X Y} (f : X → result Y) l e :
  for_each f l = Raise e → ∃ x, x ∈ l ∧ f x = Raise e.
Proof.
  induction l as [|x l IH]; simpl; [done|].
  destruct (f x) as [y|e'] eqn:Hx; simpl.
  - destruct (for_each f l) as [ys|e'] eqn:Hl; simpl; [done|].
    intros [= ->]. destruct (IH eq_refl) as (x' & ? & ?).
    exists x'. split; [by right|done].
  - intros [= ->]. exists x. split; [by left|done].
Qed.

Lemma projection_Raise v c centre e :
  projection v c centre = Raise e → e = ZeroDivisionError.
Proof. unfold projection. case_decide; [|done]. by intros [= <-]. Qed.

Lemma Camera_init_angles :
  x_rotation_angle Camera_init = 0 ∧ z_rotation_angle Camera_init = 0.
Proof.
  unfold x_rotation_angle, z_rotation_angle, Camera_x, Camera_y, Camera_z.
  simpl. rewrite decide_False by lra.
  replace (0 / 1) with 0 by field. by rewrite atan_0.
Qed.

Lemma Camera_move_zero c : Camera_move c (V3 0 0 0) = c.
Proof.
  destruct c as [[px py pz] vw sp rs]. unfold Camera_move, vadd3, vscale3.
  simpl. f_equal. f_equal; ring.
Qed.

Lemma with_camera_same w : with_camera w (camera w) = w.
Proof. by destruct w. Qed.

Lemma Shape_has_no_faces (s : Shape R) : Shape_attrs s !! "faces" = None.
Proof. reflexivity. Qed.

Lemma for_each_total {X Y} (f : X → result Y) l :
  Forall (λ x, ∃ y, f x = Ok y) l → ∃ ys, for_each f l = Ok ys.
Proof.
  induction 1 as [|x l [y Hy] _ [ys IH]]; [by exists []|].
  exists (y :: ys). simpl. by rewrite Hy, IH.
Qed.

(** With the pointer at rest the default camera keeps its view. *)
Lemma Camera_turn_at_rest :
  Camera_turn Camera_init (0 * PI / 1000) (- 0 * PI / 1000) = Camera_init.
Proof.
  replace (0 * PI / 1000) with 0 by field.
  replace (- 0 * PI / 1000) with 0 by field.
  unfold Camera_turn, Camera_init, mulm, mulv, dot, column, x_rotator,
    z_rotator.
  simpl. rewrite cos_0, sin_0. f_equal. f_equal; ring.
Qed.

(** The default camera sees every point in front of the plane y = -10. *)
Lemma projection_Camera_init p centre :
  -10 < v3y p → ∃ q, projection p Camera_init centre = Ok q.
Proof.
  intros Hp. destruct Camera_init_angles as [Hx Hz].
  unfold projection. rewrite Hx, Hz.
  case_decide as Hlen; [|by eexists]. exfalso. revert Hlen.
  destruct p as [px py pz]. simpl in Hp.
  unfold length3, mulv, dot, vsub3, x_rotator, z_rotator. simpl.
  rewrite cos_0, sin_0. apply Rgt_not_eq, sqrt_lt_R0. nra.
Qed.
End MainProperties.

(** C1: when the camera does not look along a direction with y = 0 and the
    rotated camera-relative vector v' has a nonzero length, [projection]
    returns the product of the 2x3 matrix [[sx,0,0],[0,0,sy]] with v' plus
    the centre, for sx = 800/length(v') and sy = -800/length(v'), which is
    centre + (800 v'.x / length(v'), -800 v'.z / length(v')). *)
Theorem projection_formula (p : Vector3 R) (c : Main.Camera)
    (centre : Vector2 R) :
  let v' := mulv (Main.z_rotator (Main.z_rotation_angle c))
              (mulv (Main.x_rotator (Main.x_rotation_angle c))
                 (vsub3 p (Main.pos c))) in
  let len := Main.length3 v' in
  Main.Camera_y c ≠ 0%R → len ≠ 0%R →
  Main.projection p c centre =
    Ok (vadd2 (mulv23 (M23 (V3 (800 / len) 0 0) (V3 0 0 (-800 / len)))%R v')
          centre) ∧
  Main.projection p c centre =
    Ok (V2 (v2x centre + 800 * v3x v' / len)
           (v2y centre + -800 * v3z v' / len))%R.
Proof.
  intros v' len _ Hlen. unfold Main.projection. fold v'. fold len.
  rewrite decide_False by done.
  split; f_equal; unfold vadd2, mulv23, dot; simpl; f_equal; by field.
Qed.

Lemma projection_formula_witness :
  Main.projection (V3 0 0 0)%R Main.Camera_init (V2 683 372)%R =
    Ok (V2 683 372)%R.
Proof.
  destruct Camera_init_angles as [Hx Hz].
  assert (Main.Camera_y Main.Camera_init ≠ 0%R) as Hy.
  { unfold Main.Camera_y. simpl. lra. }
  assert (mulv (Main.z_rotator (Main.z_rotation_angle Main.Camera_init))
            (mulv (Main.x_rotator (Main.x_rotation_angle Main.Camera_init))
               (vsub3 (V3 0 0 0)%R (Main.pos Main.Camera_init))) =
          (V3 0 10 0)%R) as Hv.
  { rewrite Hx, Hz. unfold Main.z_rotator, Main.x_rotator, mulv, dot, vsub3.
    simpl. rewrite cos_0, sin_0. f_equal; ring. }
  assert (Main.length3 (V3 0 10 0)%R = 10%R) as Hl.
  { unfold Main.length3. simpl.
    replace (0 * 0 + 10 * 10 + 0 * 0)%R with (10 * 10)%R by ring.
    apply sqrt_square. lra. }
  destruct (projection_formula (V3 0 0 0)%R Main.Camera_init (V2 683 372)%R Hy)
    as [_ Hp].
  { rewrite Hv, Hl. lra. }
  rewrite Hp, Hv, Hl. simpl. f_equal. f_equal; field.
Defined.

(** C4 (the code departs from it): no shape object has an attribute
    [faces], so every call of [draw] ends in an exception: AttributeError
    when it reaches the loop over the faces, before any edge is drawn, or
    ZeroDivisionError when a projection failed before that. *)
Theorem draw_always_raises (w : Main.Window) :
  (∀ converted_points,
     for_each (λ v, Main.projection v
                      (Main.Camera_turn (Main.camera w)
                         ((Main.mouse w).2 * PI / 1000)
                         (- (Main.mouse w).1 * PI / 1000))
                      (Main.centre w))
              (points (Main.shape w)) = Ok converted_points →
     Main.draw w = Raise AttributeError) ∧
  (Main.draw w = Raise AttributeError ∨ Main.draw w = Raise ZeroDivisionError).
Proof.
  unfold Main.draw, Main.mouse_to_angles.
  destruct (Main.mouse w) as [mx my]. simpl.
  destruct (for_each _ (points (Main.shape w))) as [cp|e] eqn:Hcp; simpl.
  - split; [intros _ _|left]; reflexivity.
  - split; [done|right].
    apply for_each_Raise in Hcp as (v & _ & Hv).
    by apply projection_Raise in Hv as ->.
Qed.

Lemma draw_always_raises_witness :
  Main.draw (Main.Window_init (reset Cube_class)) = Raise AttributeError.
Proof.
  assert (∃ converted_points,
            for_each (λ v, Main.projection v Main.Camera_init
                             (V2 (1366 / 2) (744 / 2))%R)
                     (points (reset (@Cube_class R _))) = Ok converted_points)
    as [converted_points Hc].
  { apply for_each_total. simpl.
    repeat constructor; apply projection_Camera_init; simpl; lra. }
  apply (proj1 (draw_always_raises (Main.Window_init (reset Cube_class)))
           converted_points).
  simpl. rewrite Camera_turn_at_rest. exact Hc.
Defined.

(** C5 (the code departs from it): for a key that is not in the binding
    table and a window that is not paused, the movement handler leaves the
    window and its camera as they are, but the turn handler raises
    TypeError: its default is the tuple (0,0), which cannot be multiplied by
    a float. *)
Theorem unmapped_key_turn_raises (w : Main.Window) (ev : Main.Event) :
  Main.paused w = false →
  Main.type ev = Main.Key →
  Main.KEY_BINDINGS !! Main.char ev = None →
  Main.move_input w ev = Ok w ∧ Main.turn_input w ev = Raise TypeError.
Proof.
  intros Hp Ht Hk. unfold Main.move_input, Main.turn_input.
  rewrite Hp, Ht, Hk. simpl.
  by rewrite Camera_move_zero, with_camera_same.
Qed.

Lemma unmapped_key_turn_raises_witness :
  let w := Main.Window_init (reset Cube_class) in
  let ev := {| Main.type := Main.Key; Main.char := "x";
               Main.x := 0%R; Main.y := 0%R |} in
  Main.move_input w ev = Ok w ∧ Main.turn_input w ev = Raise TypeError.
Proof.
  intros w ev.
  apply (unmapped_key_turn_raises w ev); reflexivity.
Defined.

(** C6: with a view whose y component is zero both angles are pi; otherwise
    [x_rotation_angle] is atan(view.z / view.y) and [z_rotation_angle] is
    atan(view.x / view.y).  The angles are functions of the view the camera
    holds when they are read: cameras with equal views have equal angles,
    and after [turn] the angles are those of the turned view. *)
Theorem rotation_angles (c : Main.Camera) :
  (Main.Camera_y c = 0%R →
     Main.x_rotation_angle c = PI ∧ Main.z_rotation_angle c = PI) ∧
  (Main.Camera_y c ≠ 0%R →
     Main.x_rotation_angle c = atan (Main.Camera_z c / Main.Camera_y c) ∧
     Main.z_rotation_angle c = atan (Main.Camera_x c / Main.Camera_y c)) ∧
  (∀ c', Main.view c' = Main.view c →
     Main.x_rotation_angle c' = Main.x_rotation_angle c ∧
     Main.z_rotation_angle c' = Main.z_rotation_angle c) ∧
  (∀ rad_x rad_z,
     let v := mulv (mulm (Main.x_rotator rad_x) (Main.z_rotator rad_z))
                (Main.view c) in
     v3y v ≠ 0%R →
     Main.x_rotation_angle (Main.Camera_turn c rad_x rad_z) =
       atan (v3z v / v3y v) ∧
     Main.z_rotation_angle (Main.Camera_turn c rad_x rad_z) =
       atan (v3x v / v3y v)).
Proof.
  unfold Main.x_rotation_angle, Main.z_rotation_angle.
  unfold Main.Camera_x, Main.Camera_y, Main.Camera_z.
  split_and!.
  - intros Hy. by rewrite !decide_True.
  - intros Hy. by rewrite !decide_False.
  - by intros c' ->.
  - intros rad_x rad_z. simpl. intros Hv. by rewrite !decide_False.
Qed.

Lemma rotation_angles_witness :
  (Main.x_rotation_angle
     {| Main.pos := V3 0 0 0; Main.view := V3 1 0 2;
        Main.speed := 1; Main.rot_speed := 1 |}%R = PI) ∧
  (Main.x_rotation_angle
     {| Main.pos := V3 0 0 0; Main.view := V3 1 2 3;
        Main.speed := 1; Main.rot_speed := 1 |}%R = atan (3 / 2)).
Proof.
  split.
  - refine (proj1 (proj1 (rotation_angles _) _)).
    unfold Main.Camera_y. simpl. reflexivity.
  - refine (proj1 (proj1 (proj2 (rotation_angles _)) _)).
    unfold Main.Camera_y. simpl. lra.
Defined.

(** * Further properties of shapes.py *)

Section MoreShapes.
Context {A : Type} `{Number A}.
Implicit Types (self shape : Shape A) (pts : list (Vector3 A)).

Lemma first_occurrences_cons {X} `{EqDecision X} (x : X) (l : list X) :
  ∃ k, first_occurrences (x :: l) = x :: k.
Proof.
  unfold first_occurrences, enumerate. rewrite imap_cons.
  rewrite filter_cons_True by (simpl; apply not_elem_of_nil).
  rewrite fmap_cons. by eexists.
Qed.

Lemma length_first_occurrences {X} `{EqDecision X} (l : list X) :
  length (first_occurrences l) ≤ length l.
Proof.
  unfold first_occurrences, enumerate. rewrite length_fmap.
  etrans; [apply length_filter|]. by rewrite length_imap.
Qed.

Lemma new_index_lookup pts i k :
  new_index pts i = Some k → first_occurrences pts !! k = pts !! i.
Proof.
  unfold new_index. destruct (pts !! i) as [v|]; [|done]. simpl.
  destruct (list_find _ _) as [[k' w]|] eqn:Hf; [|done].
  intros [= <-]. by apply list_find_Some in Hf as (-> & -> & _).
Qed.

(** What [optimise] returns, whenever it returns. *)
Lemma optimise_Ok_spec self self' :
  optimise self = Ok self' → well_formed self ∧ self' = optimise_spec self.
Proof.
  intros Ho. pose proof (optimise_Ok_well_formed _ _ Ho) as Hwf.
  rewrite (optimise_well_formed _ Hwf) in Ho. by injection Ho as <-.
Qed.

Lemma optimise_length self self' :
  optimise self = Ok self' →
  length (points self') ≤ length (points self) ∧
  length (lines self') ≤ length (lines self).
Proof.
  intros [_ ->]%optimise_Ok_spec. simpl. split.
  - apply length_first_occurrences.
  - etrans; [apply length_first_occurrences|]. by rewrite length_map.
Qed.

Lemma optimise_head self self' a :
  optimise self = Ok self' → points self !! 0%nat = Some a →
  points self' !! 0%nat = Some a.
Proof.
  intros [_ ->]%optimise_Ok_spec. simpl.
  destruct (points self) as [|x pts]; [done|]. intros [= ->].
  by destruct (first_occurrences_cons a pts) as [k ->].
Qed.
End MoreShapes.

(** X1: the state [optimise] returns holds no point value twice and no two
    edges that are equal as sets of indices. *)
Theorem optimise_leaves_no_duplicates (A : Type) (N : Number A)
    (self self' : Shape A) :
  optimise self = Ok self' →
  NoDup (points self') ∧ NoDup (edge_set <$> lines self').
Proof.
  intros (Hp & Hl & Hset)%optimise_result. split; [done|].
  apply NoDup_fmap_2_strong; [|done].
  intros l1 l2 Hl1 Hl2.
  destruct (proj1 (Forall_forall _ _) Hset l1 Hl1) as [s1 ->].
  destruct (proj1 (Forall_forall _ _) Hset l2 Hl2) as [s2 ->].
  simpl. by intros ->.
Qed.

Lemma optimise_leaves_no_duplicates_witness :
  ∃ s : Shape Qc,
    optimise repeated_corner = Ok s ∧
    NoDup (points s) ∧ NoDup (edge_set <$> lines s).
Proof.
  eexists. split; [vm_compute; reflexivity|].
  eapply (optimise_leaves_no_duplicates Qc _ repeated_corner).
  vm_compute. reflexivity.
Defined.

(** X2: [optimise] keeps the geometry.  The retained points are the values
    of the old points; every old edge between two points is answered by a
    new edge between points of the same two values, and every new edge
    answers an old one in this way. *)
Theorem optimise_keeps_geometry (A : Type) (N : Number A)
    (self self' : Shape A) :
  optimise self = Ok self' →
  (∀ v, v ∈ points self' ↔ v ∈ points self) ∧
  (∀ l i j p q,
     l ∈ lines self → edge_set l = {[ i; j ]} →
     points self !! i = Some p → points self !! j = Some q →
     ∃ i' j', ESet {[ i'; j' ]} ∈ lines self' ∧
              points self' !! i' = Some p ∧ points self' !! j' = Some q) ∧
  (∀ l', l' ∈ lines self' →
     ∃ l i j i' j' p q,
       l ∈ lines self ∧ edge_set l = {[ i; j ]} ∧ l' = ESet {[ i'; j' ]} ∧
       points self !! i = Some p ∧ points self !! j = Some q ∧
       points self' !! i' = Some p ∧ points self' !! j' = Some q).
Proof.
  intros Ho. destruct (optimise_Ok_spec _ _ Ho) as [Hwf ->].
  simpl. split_and!.
  - intros v. apply elem_of_first_occurrences.
  - intros l i j p q Hl Hij Hi Hj.
    destruct (new_index_is_Some (points self) i) as [i' Hi'];
      [by eapply lookup_lt_Some|].
    destruct (new_index_is_Some (points self) j) as [j' Hj'];
      [by eapply lookup_lt_Some|].
    exists i', j'. split_and!.
    + apply elem_of_first_occurrences, list_elem_of_fmap.
      exists l. split; [|done].
      by rewrite Hij, (set_omap_pair _ _ _ _ _ Hi' Hj').
    + by rewrite (new_index_lookup _ _ _ Hi').
    + by rewrite (new_index_lookup _ _ _ Hj').
  - intros l' Hl'.
    apply (proj1 (elem_of_first_occurrences _ _)) in Hl'.
    apply list_elem_of_fmap in Hl' as (l & -> & Hl).
    pose proof (proj1 (Forall_forall _ _) Hwf l Hl) as Hok.
    apply unpack_edge_ok in Hok as (i & j & Hu & Hi & Hj).
    destruct (new_index_is_Some _ _ Hi) as [i' Hi'].
    destruct (new_index_is_Some _ _ Hj) as [j' Hj'].
    destruct (lookup_lt_is_Some_2 _ _ Hi) as [p Hp].
    destruct (lookup_lt_is_Some_2 _ _ Hj) as [q Hq].
    exists l, i, j, i', j', p, q.
    rewrite (unpack_Ok _ _ _ Hu) at 1 2.
    rewrite (set_omap_pair _ _ _ _ _ Hi' Hj').
    rewrite (new_index_lookup _ _ _ Hi'), (new_index_lookup _ _ _ Hj').
    done.
Qed.

Lemma optimise_keeps_geometry_witness :
  ∃ s : Shape Qc,
    optimise repeated_corner = Ok s ∧
    ∀ v, v ∈ points s ↔ v ∈ points repeated_corner.
Proof.
  eexists. split; [vm_compute; reflexivity|].
  refine (proj1 (optimise_keeps_geometry Qc _ repeated_corner _ _)).
  vm_compute. reflexivity.
Defined.

(** X3: [optimise] never adds a point or an edge. *)
Theorem optimise_never_grows (A : Type) (N : Number A)
    (self self' : Shape A) :
  optimise self = Ok self' →
  length (points self') ≤ length (points self) ∧
  length (lines self') ≤ length (lines self).
Proof.
  apply optimise_length.
Qed.

Lemma optimise_never_grows_witness :
  ∃ s : Shape Qc,
    optimise repeated_corner = Ok s ∧
    length (points s) ≤ 3 ∧ length (lines s) ≤ 2.
Proof.
  eexists. split; [vm_compute; reflexivity|].
  apply (optimise_never_grows Qc _ repeated_corner).
  vm_compute. reflexivity.
Defined.

Lemma optimise_twice_same_witness :
  ∃ s : Shape Qc, optimise repeated_corner = Ok s ∧ optimise s = Ok s.
Proof.
  eexists. split; [vm_compute; reflexivity|].
  apply (optimise_twice_same repeated_corner); [vm_compute; reflexivity|].
  intros l Hl. apply list_elem_of_singleton in Hl. subst l. reflexivity.
Defined.

Section Constructors.
Context {A : Type} `{Number A}.
Implicit Types (self shape : Shape A) (shapes : list (Shape A)).

Lemma edge_ok_mono n m l : n ≤ m → edge_ok n l → edge_ok m l.
Proof.
  intros Hnm. destruct l as [s|i j]; simpl.
  - intros [Hs Hall]. split; [done|]. intros i Hi.
    specialize (Hall i Hi). simpl in Hall. lia.
  - lia.
Qed.

Lemma for_each_length {X Y} (f : X → result Y) l ys :
  for_each f l = Ok ys → length ys = length l.
Proof. intros Hl%for_each_inv. symmetry. by eapply Forall2_length. Qed.

Lemma absorb_inv self shape s' :
  absorb self shape = Ok s' →
  points s' = points self ++ points shape ∧
  length (lines s') = length (lines self) + length (lines shape).
Proof.
  unfold absorb. destruct (for_each _ (lines shape)) as [ls|] eqn:Hls; [|done].
  simpl. intros [= <-]. simpl. split; [done|].
  by rewrite length_app, (for_each_length _ _ _ Hls).
Qed.

Lemma absorb_well_formed self shape :
  well_formed self → well_formed shape →
  ∃ s', absorb self shape = Ok s' ∧ well_formed s'.
Proof.
  intros Hself Hshape. unfold absorb.
  destruct (for_each_total
              (λ l, '(i1, i2) ← unpack l;
                    Ok (ETuple (i1 + length (points self))
                               (i2 + length (points self))))
              (lines shape)) as [ls Hls].
  { eapply Forall_impl; [exact Hshape|]. intros l Hl.
    apply unpack_edge_ok in Hl as (i & j & -> & _). by eexists. }
  rewrite Hls. eexists. split; [reflexivity|].
  unfold well_formed. simpl. rewrite length_app. apply Forall_app. split.
  - eapply Forall_impl; [exact Hself|]. intros l. apply edge_ok_mono. lia.
  - apply Forall_forall. intros l Hl.
    destruct (for_each_elem _ _ _ _ Hls Hl) as (l0 & Hl0 & Hr).
    pose proof (proj1 (Forall_forall _ _) Hshape l0 Hl0) as Hok.
    apply unpack_edge_ok in Hok as (i & j & Hu & Hi & Hj).
    rewrite Hu in Hr. simpl in Hr. injection Hr as <-. simpl. lia.
Qed.

Lemma fold_absorb_inv shapes self s' :
  fold_result absorb shapes self = Ok s' →
  points s' = points self ++ concat (points <$> shapes) ∧
  length (lines s') =
    length (lines self) + sum_list_with (λ c, length (lines c)) shapes.
Proof.
  revert self. induction shapes as [|c shapes IH]; intros self; simpl.
  - intros [= <-]. by rewrite app_nil_r, Nat.add_0_r.
  - destruct (absorb self c) as [s1|] eqn:Ha; [|done]. simpl.
    intros [-> ->]%IH. apply absorb_inv in Ha as [-> ->].
    rewrite <- app_assoc. split; [done|lia].
Qed.

Lemma fold_absorb_well_formed shapes self :
  well_formed self → Forall well_formed shapes →
  ∃ s', fold_result absorb shapes self = Ok s' ∧ well_formed s'.
Proof.
  intros Hself Hall. revert self Hself.
  induction Hall as [|c shapes Hc _ IH]; intros self Hself; simpl.
  - by exists self.
  - destruct (absorb_well_formed self c Hself Hc) as (s1 & -> & H1).
    simpl. by apply IH.
Qed.

Lemma move_to_total self pos :
  ∃ self', move_to self pos = Ok self' ∧
           length (points self') = length (points self) ∧
           lines self' = lines self.
Proof.
  destruct (points self) as [|a pts] eqn:Hp.
  - exists self. rewrite move_to_nil by done. by rewrite Hp.
  - eexists. rewrite (move_to_Ok _ _ a) by by rewrite Hp.
    split; [done|]. simpl. by rewrite length_map, Hp.
Qed.

Lemma transform_head self m self' a :
  transform self m = Ok self' → points self !! 0%nat = Some a →
  points self' !! 0%nat = Some (mulv m a).
Proof.
  unfold transform. intros Ht Ha.
  assert (map (mulv m) (points self) !! 0%nat = Some (mulv m a)) as Hm.
  { destruct (points self); simplify_eq/=. done. }
  case_bool_decide.
  - by eapply optimise_head.
  - by injection Ht as <-.
Qed.

Lemma move_to_head `{!NumberLaws A} self pos self' a :
  move_to self pos = Ok self' → points self !! 0%nat = Some a →
  points self' !! 0%nat = Some pos.
Proof.
  intros Hm Ha. rewrite (move_to_Ok _ _ a Ha) in Hm. injection Hm as <-.
  simpl. destruct (points self) as [|x pts]; simplify_eq/=. f_equal.
  destruct a as [x y z], pos as [tx ty tz]. unfold vadd3, vsub3. simpl.
  by rewrite !nsub_diag, !nadd_0_l.
Qed.

Lemma Shape_init_head `{!NumberLaws A} cls shift trans self a :
  DEFAULT_POINTS cls !! 0%nat = Some a →
  Shape_init cls shift trans = Ok self →
  points self !! 0%nat = Some (mulv trans shift).
Proof.
  intros Ha. unfold Shape_init.
  destruct (move_to (reset cls) shift) as [s1|] eqn:H1; [|done]. simpl.
  intros Ht. eapply transform_head; [exact Ht|].
  by eapply move_to_head.
Qed.
End Constructors.

(** X5: [move_to] never raises, not even on a shape without points, where
    the anchor is never read; it keeps the number of points and the
    edges. *)
Theorem move_to_never_raises (A : Type) (N : Number A)
    (self : Shape A) (pos : Vector3 A) :
  ∃ self', move_to self pos = Ok self' ∧
           length (points self') = length (points self) ∧
           lines self' = lines self ∧
           (points self = [] → self' = self).
Proof.
  destruct (move_to_total self pos) as (self' & Hm & Hlen & Hl).
  exists self'. split_and!; [done..|].
  intros Hnil. rewrite move_to_nil in Hm by done. by injection Hm.
Qed.

(** X6: [Cube] and [SquarePyramid] return a shape for every shift and every
    transform, singular ones included. *)
Theorem table_constructors_never_raise (A : Type) (N : Number A)
    (shift : Vector3 A) (trans : Matrix3 A) :
  (∃ self, Cube shift trans = Ok self) ∧
  (∃ self, SquarePyramid shift trans = Ok self).
Proof.
  split; apply Shape_init_total.
  - apply Cube_class_well_formed.
  - apply SquarePyramid_class_well_formed.
Qed.

(** X7: with a transform of nonzero determinant the constructors keep the
    tables of their class: a cube has 8 points and its 12 edges, a pyramid 5
    points and its 8 edges. *)
Theorem nonsingular_constructors_keep_tables (A : Type) (N : Number A)
    (shift : Vector3 A) (trans : Matrix3 A) :
  det trans ≠ n0 →
  (∃ self, Cube shift trans = Ok self ∧
           length (points self) = 8 ∧ lines self = LINES Cube_class) ∧
  (∃ self, SquarePyramid shift trans = Ok self ∧
           length (points self) = 5 ∧
           lines self = LINES SquarePyramid_class).
Proof.
  intros Hd.
  assert (∀ cls : ShapeClass A,
            ∃ self, Shape_init cls shift trans = Ok self ∧
                    length (points self) = length (DEFAULT_POINTS cls) ∧
                    lines self = LINES cls) as Hcls.
  { intros cls. unfold Shape_init.
    destruct (move_to_total (reset cls) shift) as (s1 & -> & Hlen & Hl).
    simpl. unfold transform. rewrite bool_decide_eq_false_2 by done.
    eexists. split; [done|]. simpl. by rewrite length_map. }
  split; apply Hcls.
Qed.

Lemma nonsingular_constructors_keep_tables_witness :
  ∃ self : Shape Qc, Cube somewhere m1 = Ok self ∧
                     length (points self) = 8 ∧
                     lines self = LINES Cube_class.
Proof.
  assert (det (m1 : Matrix3 Qc) ≠ n0) as Hd by (vm_compute; discriminate).
  exact (proj1 (nonsingular_constructors_keep_tables Qc _ somewhere m1 Hd)).
Defined.

(** X8: whatever the children and the transform, a shape that a constructor
    returns has its anchor, point 0, at [trans * shift].  For a combination
    that point is the origin the constructor starts from, not a point of a
    child. *)
Theorem constructors_anchor (A : Type) (N : Number A) (L : NumberLaws A)
    (shift : Vector3 A) (trans : Matrix3 A) (self : Shape A) :
  (Cube shift trans = Ok self → points self !! 0%nat = Some (mulv trans shift)) ∧
  (SquarePyramid shift trans = Ok self →
     points self !! 0%nat = Some (mulv trans shift)) ∧
  (∀ shapes, ShapeCombination shapes shift trans = Ok self →
     points self !! 0%nat = Some (mulv trans shift)).
Proof.
  split_and!.
  - by apply (Shape_init_head Cube_class shift trans self v0).
  - by apply (Shape_init_head SquarePyramid_class shift trans self v0).
  - intros shapes. unfold ShapeCombination.
    destruct (fold_result _ _ _) as [s1|] eqn:H1; [|done]. simpl.
    destruct (move_to s1 shift) as [s2|] eqn:H2; [|done]. simpl.
    destruct (transform s2 trans) as [s3|] eqn:H3; [|done]. simpl.
    intros Ho. eapply optimise_head; [exact Ho|].
    eapply transform_head; [exact H3|].
    eapply (move_to_head _ _ _ v0); [exact H2|].
    apply fold_absorb_inv in H1 as [-> _]. done.
Qed.

Lemma constructors_anchor_witness :
  ∃ self : Shape Qc, Cube somewhere flatten_z = Ok self ∧
                     points self !! 0%nat = Some (mulv flatten_z somewhere).
Proof.
  eexists. split; [vm_compute; reflexivity|].
  refine (proj1 (constructors_anchor Qc _ _ somewhere flatten_z _) _).
  vm_compute. reflexivity.
Defined.

(** X9: [ShapeCombination] returns a shape whenever every edge of every
    child joins two points of that child and the transform has a nonzero
    determinant. *)
Theorem ShapeCombination_never_raises (A : Type) (N : Number A)
    (shapes : list (Shape A)) (shift : Vector3 A) (trans : Matrix3 A) :
  Forall well_formed shapes → det trans ≠ n0 →
  ∃ self, ShapeCombination shapes shift trans = Ok self.
Proof.
  intros Hall Hd. unfold ShapeCombination.
  destruct (fold_absorb_well_formed shapes (reset Shape_class))
    as (s1 & -> & H1); [by constructor|done|]. simpl.
  destruct (move_to_total s1 shift) as (s2 & -> & Hlen & Hl). simpl.
  unfold transform. rewrite bool_decide_eq_false_2 by done. simpl.
  eexists. apply optimise_well_formed.
  unfold well_formed in *. simpl. by rewrite length_map, Hlen, Hl.
Qed.

Lemma ShapeCombination_never_raises_witness :
  ∃ self : Shape Qc, ShapeCombination [unit_cube; unit_cube] somewhere m1 = Ok self.
Proof.
  apply ShapeCombination_never_raises.
  - constructor; [apply Cube_class_well_formed|].
    constructor; [apply Cube_class_well_formed|]. constructor.
  - vm_compute. discriminate.
Defined.

(** X10: a combination holds at most one point more than its children
    together, and at most as many edges. *)
Theorem ShapeCombination_size (A : Type) (N : Number A)
    (shapes : list (Shape A)) (shift : Vector3 A) (trans : Matrix3 A)
    (self : Shape A) :
  ShapeCombination shapes shift trans = Ok self →
  length (points self) ≤ 1 + sum_list_with (λ c, length (points c)) shapes ∧
  length (lines self) ≤ sum_list_with (λ c, length (lines c)) shapes.
Proof.
  unfold ShapeCombination.
  destruct (fold_result _ _ _) as [s1|] eqn:H1; [|done]. simpl.
  destruct (move_to s1 shift) as [s2|] eqn:H2; [|done]. simpl.
  destruct (transform s2 trans) as [s3|] eqn:H3; [|done]. simpl.
  intros [Hp Hl]%optimise_length.
  apply fold_absorb_inv in H1 as [Hp1 Hl1]. simpl in Hp1, Hl1.
  apply move_to_inv in H2 as [Hp2 Hl2].
  assert (length (points s1) =
          1 + sum_list_with (λ c, length (points c)) shapes) as Hsum.
  { rewrite Hp1. simpl. f_equal. clear.
    induction shapes as [|c shapes IH]; [done|].
    rewrite fmap_cons. simpl. rewrite length_app. by rewrite IH. }
  assert (length (points s3) ≤ length (points s2) ∧
          length (lines s3) ≤ length (lines s2)) as [Hp3 Hl3].
  { revert H3. unfold transform. case_bool_decide.
    - intros [??]%optimise_length. simpl in *.
      by rewrite length_map in *.
    - intros [= <-]. simpl. by rewrite length_map. }
  rewrite Hl2 in Hl3. lia.
Qed.

Lemma ShapeCombination_size_witness :
  ∃ self : Shape Qc,
    ShapeCombination [unit_cube; unit_cube] somewhere m1 = Ok self ∧
    length (points self) ≤ 17 ∧ length (lines self) ≤ 24.
Proof.
  eexists. split; [vm_compute; reflexivity|].
  apply (ShapeCombination_size Qc _ [unit_cube; unit_cube] somewhere m1).
  vm_compute. reflexivity.
Defined.

(** X11: building the scene of main.py raises nothing; the scene has 30
    distinct points and 58 edges, each joining two different points of
    it. *)
Theorem scene_is_built :
  ∃ s : Shape Qc,
    myShape = Ok s ∧ length (points s) = 30 ∧ length (lines s) = 58 ∧
    NoDup (points s) ∧
    Forall (λ l, size (edge_set l) = 2 ∧
                 set_Forall (λ i, i < length (points s)) (edge_set l))
           (lines s).
Proof.
  eexists. split; [vm_compute; reflexivity|].
  split; [reflexivity|]. split; [reflexivity|].
  split; apply (bool_decide_unpack _); by vm_compute.
Qed.

(** * Further properties of main.py *)

Section Rotations.
Import Main.
Local Open Scope R_scope.
Implicit Types (v : Vector3 R) (a b : R).

Lemma map_fixed {X} (f : X → X) (l : list X) :
  (∀ x, f x = x) → map f l = l.
Proof. intros Hf. induction l as [|x l IH]; simpl; [done|]. by rewrite Hf, IH. Qed.

Lemma sin_cos_1 a : cos a * cos a + sin a * sin a = 1.
Proof. pose proof (sin2_cos2 a) as Hsc. unfold Rsqr in Hsc. lra. Qed.

Lemma det_z_rotator a : det (z_rotator a) = 1.
Proof. unfold det, z_rotator. simpl. pose proof (sin_cos_1 a). nra. Qed.

Lemma det_x_rotator a : det (x_rotator a) = 1.
Proof. unfold det, x_rotator. simpl. pose proof (sin_cos_1 a). nra. Qed.

Lemma mulv_z_rotator_plus a b v :
  mulv (z_rotator a) (mulv (z_rotator b) v) = mulv (z_rotator (a + b)) v.
Proof.
  destruct v as [x y z]. unfold mulv, dot, z_rotator. simpl.
  rewrite cos_plus, sin_plus. f_equal; ring.
Qed.

Lemma mulv_x_rotator_plus a b v :
  mulv (x_rotator a) (mulv (x_rotator b) v) = mulv (x_rotator (a + b)) v.
Proof.
  destruct v as [x y z]. unfold mulv, dot, x_rotator. simpl.
  rewrite cos_plus, sin_plus. f_equal; ring.
Qed.

Lemma mulv_z_rotator_0 v : mulv (z_rotator 0) v = v.
Proof.
  destruct v as [x y z]. unfold mulv, dot, z_rotator. simpl.
  rewrite cos_0, sin_0. f_equal; ring.
Qed.

Lemma mulv_x_rotator_0 v : mulv (x_rotator 0) v = v.
Proof.
  destruct v as [x y z]. unfold mulv, dot, x_rotator. simpl.
  rewrite cos_0, sin_0. f_equal; ring.
Qed.

Lemma length3_z_rotator a v : length3 (mulv (z_rotator a) v) = length3 v.
Proof.
  destruct v as [x y z]. unfold length3, mulv, dot, z_rotator. simpl.
  f_equal.
  transitivity ((cos a * cos a + sin a * sin a) * (x * x + y * y) + z * z);
    [ring|]. rewrite sin_cos_1. ring.
Qed.

Lemma length3_x_rotator a v : length3 (mulv (x_rotator a) v) = length3 v.
Proof.
  destruct v as [x y z]. unfold length3, mulv, dot, x_rotator. simpl.
  f_equal.
  transitivity (x * x + (cos a * cos a + sin a * sin a) * (y * y + z * z));
    [ring|]. rewrite sin_cos_1. ring.
Qed.

Lemma mulv_mulm (m n : Matrix3 R) v : mulv (mulm m n) v = mulv m (mulv n v).
Proof.
  destruct m as [[] [] []], n as [[] [] []], v as [x y z].
  unfold mulv, mulm, dot, column. simpl. f_equal; ring.
Qed.

Lemma transform_nonsingular (s : Shape R) (m : Matrix3 R) :
  det m ≠ 0 →
  transform s m = Ok {| points := map (mulv m) (points s); lines := lines s |}.
Proof. intros Hd. unfold transform. by rewrite bool_decide_eq_false_2. Qed.

Lemma length3_nonneg v : 0 <= v3x v * v3x v + v3y v * v3y v + v3z v * v3z v.
Proof. nra. Qed.

Lemma length3_sqr v :
  length3 v * length3 v = v3x v * v3x v + v3y v * v3y v + v3z v * v3z v.
Proof. apply sqrt_sqrt, length3_nonneg. Qed.

Lemma length3_zero v : length3 v = 0 ↔ v = V3 0 0 0.
Proof.
  split.
  - intros Hl. pose proof (length3_sqr v) as Hs. rewrite Hl in Hs.
    destruct v as [x y z]. simpl in Hs.
    assert (x = 0) by nra. assert (y = 0) by nra. assert (z = 0) by nra.
    by subst.
  - intros ->. unfold length3. simpl.
    replace (0 * 0 + 0 * 0 + 0 * 0) with 0 by ring. apply sqrt_0.
Qed.

(** The vector [projection] scales: the point seen from the camera, turned
    by the two angles of the camera. *)
Definition seen (p : Vector3 R) (c : Camera) : Vector3 R :=
  mulv (z_rotator (z_rotation_angle c))
    (mulv (x_rotator (x_rotation_angle c)) (vsub3 p (pos c))).

Lemma length3_seen p c : length3 (seen p c) = length3 (vsub3 p (pos c)).
Proof. unfold seen. by rewrite length3_z_rotator, length3_x_rotator. Qed.
End Rotations.

(** X12: a rotation matrix of either kind has determinant 1, so
    [transform] with it, as in every frame of [draw], maps the points and
    nothing else: no point or edge is merged and nothing is raised. *)
Theorem rotation_never_deduplicates (s : Shape R) (angle : R) :
  det (Main.z_rotator angle) = 1%R ∧ det (Main.x_rotator angle) = 1%R ∧
  transform s (Main.z_rotator angle) =
    Ok {| points := map (mulv (Main.z_rotator angle)) (points s);
          lines := lines s |} ∧
  transform s (Main.x_rotator angle) =
    Ok {| points := map (mulv (Main.x_rotator angle)) (points s);
          lines := lines s |}.
Proof.
  split; [apply det_z_rotator|]. split; [apply det_x_rotator|].
  split; apply transform_nonsingular.
  - rewrite det_z_rotator. lra.
  - rewrite det_x_rotator. lra.
Qed.

(** X13: the per-frame rotation by pi/32 comes round: after 64 frames every
    shape is back where it was (in exact arithmetic). *)
Theorem spin_full_turn (s : Shape R) : Main.spin 64 s = Ok s.
Proof.
  assert (∀ n (s : Shape R),
            Main.spin n s =
            Ok {| points := map (mulv (Main.z_rotator (INR n * (PI / 32))))
                              (points s);
                  lines := lines s |}) as Hspin.
  { induction n as [|n IH]; intros s'.
    - simpl. destruct s' as [pts ls]. simpl. f_equal. f_equal.
      rewrite Rmult_0_l.
      symmetry. apply map_fixed. intros v. apply mulv_z_rotator_0.
    - change (Main.spin (S n) s') with
        (s'' ← transform s' Main.obj_rotator; Main.spin n s'').
      unfold Main.obj_rotator.
      rewrite transform_nonsingular by (rewrite det_z_rotator; lra).
      simpl. rewrite IH. simpl. f_equal. f_equal.
      rewrite map_map. apply map_ext. intros v.
      rewrite mulv_z_rotator_plus. do 2 f_equal.
      change (match n with O => 1 | S _ => INR n + 1 end)%R with (INR (S n)).
      rewrite S_INR. ring. }
  rewrite Hspin, INR_IZR_INZ. change (Z.of_nat 64) with 64%Z.
  replace (64 * (PI / 32))%R with (2 * PI)%R by field.
  destruct s as [pts ls]. cbn [points lines]. f_equal. f_equal.
  apply map_fixed. intros [x y z].
  unfold mulv, dot, Main.z_rotator. simpl.
  rewrite cos_2PI, sin_2PI. f_equal; ring.
Qed.

(** X14: [turn] changes the view only, by a rotation: position and speed
    stay, the view keeps its length, and turning by zero angles changes
    nothing. *)
Theorem turn_rotates_view (c : Main.Camera) (rad_x rad_z : R) :
  Main.pos (Main.Camera_turn c rad_x rad_z) = Main.pos c ∧
  Main.speed (Main.Camera_turn c rad_x rad_z) = Main.speed c ∧
  Main.length3 (Main.view (Main.Camera_turn c rad_x rad_z)) =
    Main.length3 (Main.view c) ∧
  Main.Camera_turn c 0 0 = c.
Proof.
  split; [done|]. split; [done|]. split.
  - simpl. by rewrite mulv_mulm, length3_x_rotator, length3_z_rotator.
  - destruct c as [p v s r]. unfold Main.Camera_turn. simpl. f_equal.
    by rewrite mulv_mulm, mulv_z_rotator_0, mulv_x_rotator_0.
Qed.

Section Projection.
Import Main.
Local Open Scope R_scope.
Implicit Types (p v : Vector3 R) (c : Camera) (centre : Vector2 R).

Lemma projection_seen p c centre :
  projection p c centre =
  if decide (length3 (seen p c) = 0) then Raise ZeroDivisionError
  else Ok (V2 (1 / length3 (seen p c) * 800 * v3x (seen p c)
                 + 0 * v3y (seen p c) + 0 * v3z (seen p c) + v2x centre)
              (0 * v3x (seen p c) + 0 * v3y (seen p c)
                 + 1 / length3 (seen p c) * -800 * v3z (seen p c)
                 + v2y centre)).
Proof. reflexivity. Qed.

Lemma mulv_vscale3 (m : Matrix3 R) v k :
  mulv m (vscale3 v k) = vscale3 (mulv m v) k.
Proof.
  destruct m as [[] [] []], v as [x y z].
  unfold mulv, vscale3, dot. simpl. f_equal; ring.
Qed.

Lemma length3_vscale3 v k : 0 <= k → length3 (vscale3 v k) = k * length3 v.
Proof.
  intros Hk. destruct v as [x y z]. unfold length3, vscale3. simpl.
  replace (x * k * (x * k) + y * k * (y * k) + z * k * (z * k))
    with (k * k * (x * x + y * y + z * z)) by ring.
  rewrite sqrt_mult by nra. by rewrite sqrt_square.
Qed.

Lemma seen_along_ray p c k :
  seen (vadd3 (pos c) (vscale3 (vsub3 p (pos c)) k)) c = vscale3 (seen p c) k.
Proof.
  unfold seen. rewrite <- !mulv_vscale3. do 2 f_equal.
  destruct p as [x y z], (pos c) as [a b d].
  unfold vsub3, vadd3, vscale3. simpl. f_equal; ring.
Qed.

Lemma vsub3_zero p q : vsub3 p q = V3 0 0 0 ↔ p = q.
Proof.
  destruct p as [x y z], q as [a b d]. unfold vsub3. simpl. split.
  - intros [= Hx Hy Hz]. f_equal; lra.
  - intros [= -> -> ->]. f_equal; ring.
Qed.
End Projection.

(** X15: a projected point is never farther than 800 from the centre of
    the screen, however near or far the point is. *)
Theorem projection_within_zoom (p : Vector3 R) (c : Main.Camera)
    (centre q : Vector2 R) :
  Main.projection p c centre = Ok q →
  ((v2x q - v2x centre) * (v2x q - v2x centre) +
   (v2y q - v2y centre) * (v2y q - v2y centre) <= 800 * 800)%R.
Proof.
  rewrite projection_seen. pose proof (length3_sqr (seen p c)) as Hs.
  destruct (seen p c) as [x y z]. cbn [v3x v3y v3z] in *.
  set (L := Main.length3 (V3 x y z)) in *.
  case_decide as Hl; [done|]. intros [= <-]. cbn [v2x v2y].
  assert (0 < L * L)%R by nra.
  replace (1 / L * 800 * x + 0 * y + 0 * z + v2x centre - v2x centre)%R
    with (800 * (x / L))%R by (field; done).
  replace (0 * x + 0 * y + 1 / L * -800 * z + v2y centre - v2y centre)%R
    with (-800 * (z / L))%R by (field; done).
  assert (x / L * (x / L) + z / L * (z / L) <= 1)%R as Hu.
  { replace (x / L * (x / L) + z / L * (z / L))%R
      with ((x * x + z * z) / (L * L))%R by (field; done).
    apply Rmult_le_reg_r with (L * L)%R; [lra|].
    replace ((x * x + z * z) / (L * L) * (L * L))%R with (x * x + z * z)%R
      by (field; done).
    nra. }
  replace (800 * (x / L) * (800 * (x / L)) +
           -800 * (z / L) * (-800 * (z / L)))%R
    with (800 * 800 * (x / L * (x / L) + z / L * (z / L)))%R by ring.
  apply Rle_trans with (800 * 800 * 1)%R; [|lra].
  apply Rmult_le_compat_l; [lra|exact Hu].
Qed.

Lemma projection_within_zoom_witness :
  ((683 - 683) * (683 - 683) + (372 - 372) * (372 - 372) <= 800 * 800)%R.
Proof.
  apply (projection_within_zoom (V3 0 0 0)%R Main.Camera_init
           (V2 683 372)%R (V2 683 372)%R).
  destruct (projection_Camera_init (V3 0 0 0)%R (V2 683 372)%R) as [q Hq];
    [simpl; lra|].
  rewrite Hq. f_equal. revert Hq. rewrite projection_seen.
  destruct Camera_init_angles as [Hx Hz].
  unfold seen. rewrite Hx, Hz, mulv_z_rotator_0, mulv_x_rotator_0.
  case_decide; [done|]. intros [= <-]. simpl. f_equal; field; done.
Defined.

(** X16: [projection] raises, with ZeroDivisionError, exactly for the point
    the camera stands on; every other point gets a screen point. *)
Theorem projection_raises_at_camera (p : Vector3 R) (c : Main.Camera)
    (centre : Vector2 R) :
  (Main.projection p c centre = Raise ZeroDivisionError ↔ p = Main.pos c) ∧
  (p ≠ Main.pos c → ∃ q, Main.projection p c centre = Ok q).
Proof.
  rewrite projection_seen, <- vsub3_zero, <- length3_zero, <- length3_seen.
  split.
  - case_decide; split; done.
  - intros Hp. rewrite decide_False by done. by eexists.
Qed.

Lemma projection_raises_at_camera_witness :
  ∃ q, Main.projection (V3 0 0 0)%R Main.Camera_init (V2 683 372)%R = Ok q.
Proof.
  apply (projection_raises_at_camera (V3 0 0 0)%R Main.Camera_init).
  simpl. intros [= Hy]. lra.
Defined.

(** X17: in exact real arithmetic the screen point depends on the
    direction from the camera to the point only: moving a point along its
    ray from the camera, nearer or farther by any positive factor, leaves
    its projection where it was.  Nothing is stated about the rounding and
    overflow of the floats the program runs on. *)
Theorem projection_along_ray (p : Vector3 R) (c : Main.Camera)
    (centre : Vector2 R) (k : R) :
  (0 < k)%R →
  Main.projection
    (vadd3 (Main.pos c) (vscale3 (vsub3 p (Main.pos c)) k)) c centre =
  Main.projection p c centre.
Proof.
  intros Hk. rewrite !projection_seen, seen_along_ray.
  rewrite length3_vscale3 by lra.
  destruct (seen p c) as [x y z]. simpl.
  set (L := Main.length3 (V3 x y z)).
  destruct (decide (L = 0%R)) as [HL|HL].
  - rewrite HL, Rmult_0_r. by rewrite !decide_True.
  - rewrite !decide_False by nra. f_equal. f_equal; field; lra.
Qed.

Lemma projection_along_ray_witness :
  Main.projection
    (vadd3 (Main.pos Main.Camera_init)
       (vscale3 (vsub3 (V3 1 2 3)%R (Main.pos Main.Camera_init)) 5%R))
    Main.Camera_init (V2 683 372)%R =
  Main.projection (V3 1 2 3)%R Main.Camera_init (V2 683 372)%R.
Proof. apply projection_along_ray. lra. Defined.

Section Handlers.
Import Main.
Local Open Scope R_scope.
Implicit Types (w : Window) (ev : Event) (c : Camera).

Lemma Camera_move_back c (v v' : Vector3 R) :
  vadd3 v v' = V3 0 0 0 → Camera_move (Camera_move c v) v' = c.
Proof.
  destruct c as [[px py pz] vw sp rs], v as [x y z], v' as [x' y' z'].
  unfold vadd3. simpl. intros [= Hx Hy Hz].
  unfold Camera_move, vadd3, vscale3. simpl. f_equal. f_equal; nra.
Qed.

Lemma Camera_turn_x_back c a a' :
  a + a' = 0 → Camera_turn (Camera_turn c a 0) a' 0 = c.
Proof.
  intros Ha. destruct c as [p v s r]. unfold Camera_turn. simpl. f_equal.
  rewrite !mulv_mulm, !mulv_z_rotator_0, mulv_x_rotator_plus.
  replace (a' + a) with 0 by lra. apply mulv_x_rotator_0.
Qed.

Lemma Camera_turn_z_back c b b' :
  b + b' = 0 → Camera_turn (Camera_turn c 0 b) 0 b' = c.
Proof.
  intros Hb. destruct c as [p v s r]. unfold Camera_turn. simpl. f_equal.
  rewrite !mulv_mulm, !mulv_x_rotator_0, mulv_z_rotator_plus.
  replace (b' + b) with 0 by lra. apply mulv_z_rotator_0.
Qed.

Lemma move_there_and_back w ev1 ev2 (v1 v2 : Vector3 R) :
  paused w = false →
  KEY_BINDINGS !! char ev1 = Some (PVector3 v1) →
  KEY_BINDINGS !! char ev2 = Some (PVector3 v2) →
  vadd3 v1 v2 = V3 0 0 0 →
  ∃ w1, move_input w ev1 = Ok w1 ∧ move_input w1 ev2 = Ok w.
Proof.
  intros Hp H1 H2 Hv. unfold move_input. rewrite Hp, H1. simpl.
  eexists. split; [reflexivity|]. simpl. rewrite Hp, H2. simpl.
  rewrite Camera_move_back by done. by destruct w.
Qed.

Lemma with_camera_twice w c c' :
  with_camera (with_camera w c) c' = with_camera w c'.
Proof. done. Qed.

Lemma draw_raises w :
  draw w = Raise AttributeError ∨ draw w = Raise ZeroDivisionError.
Proof.
  unfold draw, mouse_to_angles. destruct (mouse w) as [mx my]. simpl.
  destruct (for_each _ (points (shape w))) as [cp|e] eqn:Hcp; simpl.
  - by left.
  - right. apply for_each_Raise in Hcp as (v & _ & Hv).
    by apply projection_Raise in Hv as ->.
Qed.

End Handlers.

(** X18: in exact real arithmetic the movement keys cancel in pairs, w/s,
    a/d and space/q: pressing one and then the other puts the window back as
    it was.  Exact restoration with the floats the program runs on is not
    stated. *)
Theorem opposite_move_keys_cancel (w : Main.Window) (ev1 ev2 : Main.Event) :
  Main.paused w = false →
  (Main.char ev1, Main.char ev2) ∈
    [("w", "s"); ("s", "w"); ("a", "d"); ("d", "a"); (" ", "q"); ("q", " ")] →
  ∃ w1, Main.move_input w ev1 = Ok w1 ∧ Main.move_input w1 ev2 = Ok w.
Proof.
  intros Hp Hk.
  repeat (apply elem_of_cons in Hk as [[= H1 H2]|Hk];
    [eapply (move_there_and_back w ev1 ev2);
       [exact Hp|rewrite H1; reflexivity|rewrite H2; reflexivity
       |unfold vadd3; simpl; f_equal; ring]|]).
  by apply elem_of_nil in Hk.
Qed.

Lemma opposite_move_keys_cancel_witness :
  let w := Main.Window_init (reset Cube_class) in
  let press k := {| Main.type := Main.Key; Main.char := k;
                    Main.x := 0%R; Main.y := 0%R |} in
  ∃ w1, Main.move_input w (press "a") = Ok w1 ∧
        Main.move_input w1 (press "d") = Ok w.
Proof.
  intros w press. apply opposite_move_keys_cancel; [reflexivity|].
  simpl. do 2 right. left.
Defined.

Section LookKeys.
Import Main.
Local Open Scope R_scope.

Lemma look_x_there_and_back (w : Window) (ev1 ev2 : Event) (a a' : R) :
  paused w = false → type ev1 = Key → type ev2 = Key →
  KEY_BINDINGS !! char ev1 = Some (PVector2 (V2 a 0)) →
  KEY_BINDINGS !! char ev2 = Some (PVector2 (V2 a' 0)) →
  a + a' = 0 →
  ∃ w1, turn_input w ev1 = Ok w1 ∧ turn_input w1 ev2 = Ok w.
Proof.
  intros Hp Ht1 Ht2 H1 H2 Ha.
  exists (with_camera w (Camera_turn (camera w) (a * (PI / 64)) 0)). split.
  - unfold turn_input. rewrite Hp, Ht1, H1. cbn -[Camera_turn PI].
    by rewrite Rmult_0_l.
  - unfold turn_input. cbn [paused with_camera camera].
    rewrite Hp, Ht2, H2. cbn -[Camera_turn PI]. rewrite Rmult_0_l. f_equal.
    rewrite Camera_turn_x_back by nra. by destruct w.
Qed.

Lemma look_z_there_and_back (w : Window) (ev1 ev2 : Event) (b b' : R) :
  paused w = false → type ev1 = Key → type ev2 = Key →
  KEY_BINDINGS !! char ev1 = Some (PVector2 (V2 0 b)) →
  KEY_BINDINGS !! char ev2 = Some (PVector2 (V2 0 b')) →
  b + b' = 0 →
  ∃ w1, turn_input w ev1 = Ok w1 ∧ turn_input w1 ev2 = Ok w.
Proof.
  intros Hp Ht1 Ht2 H1 H2 Hb.
  exists (with_camera w (Camera_turn (camera w) 0 (b * (PI / 64)))). split.
  - unfold turn_input. rewrite Hp, Ht1, H1. cbn -[Camera_turn PI].
    by rewrite Rmult_0_l.
  - unfold turn_input. cbn [paused with_camera camera].
    rewrite Hp, Ht2, H2. cbn -[Camera_turn PI]. rewrite Rmult_0_l. f_equal.
    rewrite Camera_turn_z_back by nra. by destruct w.
Qed.
End LookKeys.

(** X19: in exact real arithmetic the look keys undo each other in pairs,
    i/k about the x axis and j/l about the z axis: pressing one and then the
    other restores the window and the view of its camera.  Exact
    restoration with the floats the program runs on is not stated. *)
Theorem opposite_look_keys_cancel (w : Main.Window) (ev1 ev2 : Main.Event) :
  Main.paused w = false →
  Main.type ev1 = Main.Key → Main.type ev2 = Main.Key →
  (Main.char ev1, Main.char ev2) ∈
    [("i", "k"); ("k", "i"); ("j", "l"); ("l", "j")] →
  ∃ w1, Main.turn_input w ev1 = Ok w1 ∧ Main.turn_input w1 ev2 = Ok w.
Proof.
  intros Hp Ht1 Ht2 Hk.
  repeat (apply elem_of_cons in Hk as [[= H1 H2]|Hk];
    [first
       [eapply (look_x_there_and_back w ev1 ev2);
          [exact Hp|exact Ht1|exact Ht2|rewrite H1; reflexivity
          |rewrite H2; reflexivity|lra]
       |eapply (look_z_there_and_back w ev1 ev2);
          [exact Hp|exact Ht1|exact Ht2|rewrite H1; reflexivity
          |rewrite H2; reflexivity|lra]]|]).
  by apply elem_of_nil in Hk.
Qed.

Lemma opposite_look_keys_cancel_witness :
  let w := Main.Window_init (reset Cube_class) in
  let press k := {| Main.type := Main.Key; Main.char := k;
                    Main.x := 0%R; Main.y := 0%R |} in
  ∃ w1, Main.turn_input w (press "j") = Ok w1 ∧
        Main.turn_input w1 (press "l") = Ok w.
Proof.
  intros w press. apply opposite_look_keys_cancel; [reflexivity..|].
  simpl. do 2 right. left.
Defined.

(** X20: what the handlers never touch.  [move_input] changes nothing but
    the position of the camera; [turn_input] leaves the shape, the pause
    flag, the canvas and the position and speed of the camera alone, a key
    press leaves the pointer offsets alone and a pointer motion the
    camera. *)
Theorem handlers_frame (w w' : Main.Window) (ev : Main.Event) :
  (Main.move_input w ev = Ok w' →
     Main.shape w' = Main.shape w ∧ Main.mouse w' = Main.mouse w ∧
     Main.paused w' = Main.paused w ∧ Main.canvas w' = Main.canvas w ∧
     Main.view (Main.camera w') = Main.view (Main.camera w) ∧
     Main.speed (Main.camera w') = Main.speed (Main.camera w)) ∧
  (Main.turn_input w ev = Ok w' →
     Main.shape w' = Main.shape w ∧ Main.paused w' = Main.paused w ∧
     Main.canvas w' = Main.canvas w ∧
     Main.pos (Main.camera w') = Main.pos (Main.camera w) ∧
     Main.speed (Main.camera w') = Main.speed (Main.camera w) ∧
     (Main.type ev = Main.Key → Main.mouse w' = Main.mouse w) ∧
     (Main.type ev = Main.Motion → Main.camera w' = Main.camera w)).
Proof.
  split.
  - unfold Main.move_input.
    destruct (Main.paused w) eqn:Hp; [by intros [= <-]|].
    destruct (default _ _) as [v|v|t]; simpl; [|done..].
    by intros [= <-].
  - unfold Main.turn_input.
    destruct (Main.paused w) eqn:Hp; [by intros [= <-]|].
    destruct (Main.type ev).
    + case_decide; by intros [= <-].
    + destruct (default _ _) as [v|v|t]; simpl; [done| |done].
      by intros [= <-].
    + by intros [= <-].
Qed.

Lemma handlers_frame_witness :
  let w := Main.Window_init (reset Cube_class) in
  let ev := {| Main.type := Main.Key; Main.char := "w";
               Main.x := 0%R; Main.y := 0%R |} in
  ∃ w', Main.move_input w ev = Ok w' ∧
        Main.view (Main.camera w') = Main.view (Main.camera w).
Proof.
  intros w ev. eexists. split; [reflexivity|].
  refine (proj1 (proj2 (proj2 (proj2 (proj2
            (proj1 (handlers_frame w _ ev) _)))))).
  reflexivity.
Defined.

(** X21: [pause_motion], the handler of the pointer leaving the window,
    calls [toggle_motion] without the event it requires: on a window that
    is not paused it raises TypeError and pauses nothing; on a paused window
    it does nothing. *)
Theorem pause_motion_raises (g : Main.App) (ev : Main.Event) :
  (Main.paused (Main.window g) = false →
     Main.pause_motion g ev = Raise TypeError) ∧
  (Main.paused (Main.window g) = true → Main.pause_motion g ev = Ok g).
Proof.
  unfold Main.pause_motion. split; intros ->; reflexivity.
Qed.

Lemma pause_motion_raises_witness :
  Main.pause_motion (Main.App_init (reset Cube_class))
    {| Main.type := Main.Other; Main.char := EmptyString;
       Main.x := 0%R; Main.y := 0%R |} = Raise TypeError.
Proof.
  apply (proj1 (pause_motion_raises _ _)). reflexivity.
Defined.

(** X22: [toggle_motion] pauses a running window: the flag is set, the
    cursor is shown and the text reads PAUSED, with shape, camera and canvas
    untouched.  On a paused window it calls [draw], which raises, so a
    paused window is never resumed without an exception. *)
Theorem toggle_motion_pauses (g : Main.App) (ev : Main.Event) :
  (Main.paused (Main.window g) = false →
     Main.toggle_motion g [ev] =
       Ok {| Main.window := Main.with_paused (Main.window g) true;
             Main.cursor := EmptyString;
             Main.paused_text := "PAUSED" |}) ∧
  (Main.paused (Main.window g) = true →
     Main.toggle_motion g [ev] = Raise AttributeError ∨
     Main.toggle_motion g [ev] = Raise ZeroDivisionError).
Proof.
  unfold Main.toggle_motion. split; intros Hp.
  - cbn [Main.paused Main.with_paused]. by rewrite Hp.
  - cbn [Main.paused Main.with_paused]. rewrite Hp. cbn [negb].
    destruct (draw_raises (Main.with_paused (Main.window g) false))
      as [-> | ->]; [by left|by right].
Qed.

Lemma toggle_motion_pauses_witness :
  let ev := {| Main.type := Main.Key; Main.char := "p";
               Main.x := 0%R; Main.y := 0%R |} in
  ∃ g', Main.toggle_motion (Main.App_init (reset Cube_class)) [ev] = Ok g' ∧
        Main.paused (Main.window g') = true.
Proof.
  intros ev. eexists. split.
  - apply (proj1 (toggle_motion_pauses _ ev)). reflexivity.
  - reflexivity.
Defined.


(** X24: the oval of [draw_circle] is a square box centred on the point,
    with side twice the radius, or of side zero for a negative radius. *)
Theorem draw_circle_box (v : Vector2 R) (r : R) (color : string) :
  let o := Main.draw_circle v r color in
  (Main.x0 o + Main.x1 o = 2 * v2x v)%R ∧
  (Main.y0 o + Main.y1 o = 2 * v2y v)%R ∧
  (Main.x1 o - Main.x0 o = 2 * Rmax 0 r)%R ∧
  (Main.y1 o - Main.y0 o = 2 * Rmax 0 r)%R ∧
  Main.fill o = color.
Proof.
  unfold Main.draw_circle. destruct (Rlt_dec r 0) as [Hr|Hr]; simpl.
  - rewrite Rmax_left by lra. split_and!; [lra..|done].
  - rewrite Rmax_right by lra. split_and!; [lra..|done].
Qed.

(** X25: on a shape whose edge indices are all valid, the only exception
    [optimise] can raise is ValueError, and it raises it only when some
    edge does not hold exactly two indices; KeyError never escapes. *)
Theorem optimise_raises_only_ValueError (A : Type) (N : Number A)
    (self : Shape A) (e : exn) :
  valid_edges self → optimise self = Raise e →
  e = ValueError ∧ ∃ l, l ∈ lines self ∧ size (edge_set l) ≠ 2.
Proof.
  intros Hv. unfold optimise.
  destruct (for_each _ (lines self)) as [ls|e'] eqn:Hls; [done|].
  simpl. intros [= ->].
  apply for_each_Raise in Hls as (l & Hl & Hr).
  unfold rewrite_line in Hr.
  destruct (unpack l) as [[i j]|e'] eqn:Hu; simpl in Hr.
  - exfalso. pose proof (unpack_Ok _ _ _ Hu) as Hset.
    destruct (scan_points_inv (points self)) as [_ _ Hch].
    destruct (new_index_is_Some (points self) i) as [ci Hci].
    { apply (Hv l i Hl). rewrite Hset. apply elem_of_union. left.
      by apply elem_of_singleton. }
    destruct (new_index_is_Some (points self) j) as [cj Hcj].
    { apply (Hv l j Hl). rewrite Hset. apply elem_of_union. right.
      by apply elem_of_singleton. }
    by rewrite !Hch, Hci, Hcj in Hr.
  - injection Hr as ->. destruct l as [s|a b]; simpl in Hu; [|done].
    assert (e = ValueError ∧ length (elements s) ≠ 2) as [-> Hlen].
    { destruct (elements s) as [|a [|b [|d k]]]; simplify_eq/=; done. }
    split; [done|]. exists (ESet s). split; [done|]. exact Hlen.
Qed.

Lemma optimise_raises_only_ValueError_witness :
  ∃ s1 : Shape Qc,
    transform unit_cube flatten_z = Ok s1 ∧
    ∃ l, l ∈ lines s1 ∧ size (edge_set l) ≠ 2.
Proof.
  assert (∃ s1 : Shape Qc, transform unit_cube flatten_z = Ok s1 ∧
                           optimise s1 = Raise ValueError ∧
                           optimise s1 = optimise s1)
    as (s1 & Ht & Ho & _).
  { eexists. split; [vm_compute; reflexivity|].
    split; vm_compute; reflexivity. }
  exists s1. split; [exact Ht|].
  refine (proj2 (optimise_raises_only_ValueError Qc _ s1 ValueError _ Ho)).
  eapply transform_valid_edges; [|exact Ht].
  apply well_formed_valid_edges, Cube_class_well_formed.
Defined.

(** X26: over the reals [move_to] positions absolutely: it is [move_by] by
    the target minus the anchor, and a second [move_to] overrides the
    first. *)
Theorem move_to_overrides (self : Shape R) (anchor t t' : Vector3 R) :
  points self !! 0%nat = Some anchor →
  move_to self t = Ok (move_by self (vsub3 t anchor)) ∧
  (self1 ← move_to self t; move_to self1 t') = move_to self t'.
Proof.
  intros Ha.
  assert (∀ u, move_to self u = Ok (move_by self (vsub3 u anchor))) as Hm.
  { intros u. rewrite (move_to_Ok _ _ anchor Ha). unfold move_by.
    do 2 f_equal. apply map_ext. intros [x y z].
    destruct anchor as [a b d], u as [ux uy uz].
    unfold vadd3, vsub3. simpl. f_equal; ring. }
  split; [apply Hm|]. rewrite !Hm. simpl.
  assert (points (move_by self (vsub3 t anchor)) !! 0%nat = Some t) as Ht.
  { simpl. destruct (points self) as [|p pts]; simplify_eq/=. f_equal.
    destruct anchor as [a b d], t as [tx ty tz].
    unfold vadd3, vsub3. simpl. f_equal; ring. }
  rewrite (move_to_Ok _ _ t Ht). unfold move_by. simpl. do 2 f_equal.
  rewrite map_map. apply map_ext. intros [x y z].
  destruct anchor as [a b d], t as [tx ty tz], t' as [ux uy uz].
  unfold vadd3, vsub3. simpl. f_equal; ring.
Qed.

Lemma move_to_overrides_witness :
  (self1 ← move_to (reset (@Cube_class R _)) (V3 1 2 3)%R;
   move_to self1 (V3 4 5 6)%R) =
  move_to (reset Cube_class) (V3 4 5 6)%R.
Proof.
  refine (proj2 (move_to_overrides (reset Cube_class) v0 _ _ _)).
  reflexivity.
Defined.

(** * An edge that collapses *)

Section Collapse.
Context {A : Type} `{Number A}.

Lemma new_index_same_value (pts : list (Vector3 A)) i j v :
  pts !! i = Some v → pts !! j = Some v → new_index pts i = new_index pts j.
Proof. unfold new_index. by intros -> ->. Qed.

Lemma for_each_fails {X Y} (f : X → result Y) l x e :
  x ∈ l → f x = Raise e → ∃ e', for_each f l = Raise e'.
Proof.
  intros Hx Hf. induction l as [|y l IH]; [by apply elem_of_nil in Hx|].
  simpl. destruct (f y) as [z|e1] eqn:Hy; simpl; [|by eexists].
  apply elem_of_cons in Hx as [->|Hx]; [congruence|].
  destruct (IH Hx) as [e' ->]. by eexists.
Qed.

Lemma unpack_singleton k : unpack (ESet {[ k ]}) = Raise ValueError.
Proof. simpl. by rewrite elements_singleton. Qed.

Lemma draw_lines_singleton (ls : list Edge) k cp :
  ESet {[ k ]} ∈ ls → ∃ e, Main.draw_lines ls cp = Raise e.
Proof.
  intros Hk. unfold Main.draw_lines.
  eapply (for_each_fails _ _ _ ValueError); [exact Hk|].
  rewrite unpack_singleton. done.
Qed.
End Collapse.

(** C10: [optimise] does not keep the two ends of an edge apart.  Whenever
    a transform of determinant zero sends both ends of an edge of a
    well-formed shape to one value, [transform] returns a shape in which
    that edge has been rewritten to a set with the single index [k] of the
    merged point; unpacking that set into two indices raises ValueError,
    and the edge loop of [draw] raises on the shape whatever the projected
    points are.  The unit cube and the transform that flattens z are such a
    pair: its edge {0,1} becomes {0}. *)
Theorem transform_can_collapse_an_edge :
  (∀ (A : Type) (N : Number A) (s : Shape A) (m : Matrix3 A)
     (l : Edge) (i j : nat) (p q : Vector3 A),
     well_formed s → det m = n0 →
     l ∈ lines s → edge_set l = {[ i; j ]} →
     points s !! i = Some p → points s !! j = Some q →
     mulv m p = mulv m q →
     ∃ s' k,
       transform s m = Ok s' ∧
       new_index (map (mulv m) (points s)) i = Some k ∧
       new_index (map (mulv m) (points s)) j = Some k ∧
       points s' !! k = Some (mulv m p) ∧
       ESet {[ k ]} ∈ lines s' ∧
       unpack (ESet {[ k ]}) = Raise ValueError ∧
       ∀ converted_points,
         ∃ e, Main.draw_lines (lines s') converted_points = Raise e) ∧
  (∃ s' : Shape Qc,
     well_formed unit_cube ∧ det flatten_z = n0 ∧
     lines unit_cube !! 0%nat = Some (ESet {[ 0%nat; 1%nat ]}) ∧
     transform unit_cube flatten_z = Ok s' ∧
     lines s' !! 0%nat = Some (ESet {[ 0%nat ]}) ∧
     (ESet {[ 0%nat ]} ∉ lines unit_cube) ∧
     ∀ converted_points,
       Main.draw_lines (lines s') converted_points = Raise ValueError).
Proof.
  split.
  - intros A N s m l i j p q Hwf Hd Hl Hij Hp Hq Hpq.
    set (mapped := {| points := map (mulv m) (points s);
                      lines := lines s |}).
    assert (well_formed mapped) as Hwf'.
    { unfold well_formed, mapped. simpl. by rewrite length_map. }
    assert (points mapped !! i = Some (mulv m p)) as Hi.
    { simpl. change (map (mulv m) (points s)) with (mulv m <$> points s).
      by rewrite list_lookup_fmap, Hp. }
    assert (points mapped !! j = Some (mulv m p)) as Hj.
    { simpl. change (map (mulv m) (points s)) with (mulv m <$> points s).
      by rewrite list_lookup_fmap, Hq, Hpq. }
    destruct (new_index_is_Some (points mapped) i) as [k Hk];
      [by eapply lookup_lt_Some|].
    pose proof Hk as Hk'.
    rewrite (new_index_same_value _ i j _ Hi Hj) in Hk'.
    assert (ESet {[ k ]} ∈ lines (optimise_spec mapped)) as Hin.
    { assert (ESet {[ k ]} =
              ESet (set_omap (new_index (points mapped)) (edge_set l)))
        as Heq.
      { rewrite Hij, (set_omap_pair _ _ _ _ _ Hk Hk'). f_equal.
        apply set_eq. intros x. rewrite elem_of_union. tauto. }
      apply elem_of_first_occurrences, list_elem_of_fmap.
      exists l. split; [exact Heq|done]. }
    exists (optimise_spec mapped), k. split_and!.
    + unfold transform. fold mapped. rewrite bool_decide_eq_true_2 by done.
      by apply optimise_well_formed.
    + exact Hk.
    + exact Hk'.
    + change (first_occurrences (points mapped) !! k = Some (mulv m p)).
      rewrite (new_index_lookup _ _ _ Hk). exact Hi.
    + exact Hin.
    + apply unpack_singleton.
    + intros cp. by eapply draw_lines_singleton.
  - eexists. split; [apply Cube_class_well_formed|].
    split; [vm_compute; reflexivity|].
    split; [reflexivity|].
    split; [vm_compute; reflexivity|].
    split; [reflexivity|].
    split; [apply (bool_decide_unpack _); by vm_compute|].
    intros converted_points. reflexivity.
Qed.

Lemma transform_can_collapse_an_edge_witness :
  ∃ (s' : Shape Qc) (k : nat),
    transform unit_cube flatten_z = Ok s' ∧ ESet {[ k ]} ∈ lines s'.
Proof.
  destruct (proj1 transform_can_collapse_an_edge Qc _ unit_cube flatten_z
              (ESet {[ 0%nat; 1%nat ]}) 0%nat 1%nat
              (V3 0 0 0)%Qc (V3 0 0 1)%Qc)
    as (s' & k & Ht & _ & _ & _ & Hin & _).
  - apply Cube_class_well_formed.
  - vm_compute. reflexivity.
  - left.
  - reflexivity.
  - reflexivity.
  - reflexivity.
  - vm_compute. reflexivity.
  - exists s', k. split; [exact Ht|exact Hin].
Defined.
